(** * sshTools: the Go client [go_ssh/ssh.go]

    A shallow embedding of the Go program: server selection ([main]),
    the transport connector ([connectToServer]) and the interactive
    terminal session ([interactiveSession], [updateTerminalSize]).

    Calls into the operating system and into the ssh/term libraries are
    answered by two oracle records, [World] (the local machine) and
    [Session] (the remote side).  Every call that matters is logged as an
    [Event], so properties of the program are properties of its trace.
    The goroutines of the session run under an explicit schedule. *)

From Stdlib Require Import ZArith Ascii Strings.Byte.
From stdpp Require Import base tactics option list strings pretty.

#[local] Set Warnings "-clear-no-such-hyp".


(** ** Go values *)

(** A Go [error] is its message; the nil error is [None]. *)
Definition error := string.

(** A Go result pair [(T, error)]. *)
Inductive result (A : Type) : Type :=
| Ok (a : A)
| Err (e : error).
Arguments Ok {A} a.
Arguments Err {A} e.

Definition bytes := list byte.

(** The newline that [fmt.Println] appends. *)
Definition nl : string := String "010"%char EmptyString.

(** [s[n:]] on a string. *)
Fixpoint string_drop (n : nat) (s : string) : string :=
  match n, s with
  | S n', String _ s' => string_drop n' s'
  | _, _ => s
  end.

(** [strings.Replace(s, old, new, n)] for a non-empty [old]: the first [n]
    non-overlapping occurrences are replaced, all of them when [n < 0]. *)
Fixpoint Replace_go (fuel : nat) (s old new : string) (n : Z) : string :=
  match fuel with
  | O => s
  | S fuel' =>
      if (n =? 0)%Z then s
      else if String.prefix old s
           then new +:+ Replace_go fuel' (string_drop (String.length old) s) old new (n - 1)
           else match s with
                | EmptyString => EmptyString
                | String c s' => String c (Replace_go fuel' s' old new n)
                end
  end.

Definition strings_Replace (s old new : string) (n : Z) : string :=
  Replace_go (S (String.length s)) s old new n.

(** ** The data model of ssh.go *)

Record Server := {
  Alias : string;
  Address : string;
  Port : Z;
  User : string;
  Password : string;
  PrivateKey : string;
  UseKey : bool
}.

Record Config := { Servers : list Server }.

Record Flags := {
  configFile : string;
  aliasFlag : string;
  ipFlag : string
}.

(** A parsed private key ([ssh.Signer]); the library's own data. *)
Inductive Signer := MkSigner (fingerprint : string).

Inductive AuthMethod :=
| PublicKeys (key : Signer)
| PasswordAuth (secret : string).

Inductive HostKeyCallback := InsecureIgnoreHostKey.

Record ClientConfig := {
  cfgUser : string;
  cfgAuth : list AuthMethod;
  cfgHostKeyCallback : HostKeyCallback
}.

(** The terminal attributes [term.MakeRaw] hands back. *)
Inductive TermState := Termios (flags : Z).

(** One result of [os.Stdin.Read(buf)]: the count, the buffer and the error. *)
Record ReadResult := {
  rd_n : Z;
  rd_buf : bytes;
  rd_err : option error
}.

(** One value received from the SIGWINCH channel: a nil value, or a signal
    together with what [term.GetSize] answers when it is handled. *)
Inductive Notification :=
| NilSignal
| Sigwinch (currTermWidth currTermHeight : Z) (err : option error).

(** ** Oracles *)

(** The remote side of one ssh session. *)
Record Session := {
  RequestPty : string -> Z -> Z -> option error;
  StdinPipe : option error;
  StdoutPipe : option error;
  StderrPipe : option error;
  Shell : option error;
  Wait : option error;
  (** the chunks that reading the remote standard output, respectively
      standard error, delivers before a read fails, with [io.EOF] or
      with any other error: [io.Copy] stops there either way *)
  remote_stdout : list bytes;
  remote_stderr : list bytes;
  (** results of the successive writes to the stdin pipe; a write past
      the end of the list succeeds *)
  stdin_Write : list (option error)
}.

Record Client := { NewSession : result Session }.

(** The local machine, and the library functions whose code is not part of
    the repository. *)
Record World := {
  os_Open : string -> result bytes;
  json_Decode : bytes -> result Config;
  fmt_Scanln : string;
  strings_EqualFold : string -> string -> bool;
  strings_ToLower : string -> string;
  strings_TrimSpace : string -> string;
  user_Current : result string;
  os_ReadFile : string -> result bytes;
  ssh_ParsePrivateKey : bytes -> result Signer;
  ssh_Dial : string -> string -> ClientConfig -> result Client;
  term_MakeRaw : result TermState;
  term_GetSize : Z * Z * option error;
  os_Getenv_TERM : string;
  watcher_GetSize : Z * Z * option error;
  sigwinchCh : list Notification;
  os_Stdin_Read : list ReadResult;
  (** results of the successive writes of [io.Copy] to [os.Stdout],
      respectively [os.Stderr]; a write past the end of the list
      succeeds *)
  os_Stdout_Write : list (option error);
  os_Stderr_Write : list (option error);
  time_Now_RFC822 : string
}.

(** ** Events *)

Inductive tid := TMain | TStderr | TStdout | TStdin | TWinch.

Global Instance tid_eq_dec : EqDecision tid.
Proof. solve_decision. Defined.

Inductive Event :=
| EvPrint (text : string)            (* fmt.Println / fmt.Printf *)
| EvExitMsg (text : string)          (* the deferred fmt.Fprintln, lines 155/157 *)
| EvOpen (name : string)
| EvFileClose
| EvReadFile (path : string)
| EvDial (network address : string) (config : ClientConfig)
| EvNewSession
| EvSessionClose
| EvClientClose
| EvMakeRaw
| EvRestore (state : TermState)
| EvGetSize
| EvRequestPty (termType : string) (h w : Z)
| EvWindowChange (h w : Z)
| EvStdinPipe
| EvStdoutPipe
| EvStderrPipe
| EvGo (t : tid)
| EvShell
| EvWgWait                           (* wg.Wait() has returned *)
| EvWgDone (t : tid)
| EvSessionWait
| EvCopy (t : tid) (chunk : bytes)   (* io.Copy moved one chunk *)
| EvStdinWrite (chunk : bytes) (err : option error)
| EvSetExitMsg (msg : string).       (* t.exitMsg = err.Error(), line 223 *)

(** ** The resize watcher, lines 113-150 *)

(** One round of the [for]/[select] loop with last-known size
    [termWidth] x [termHeight].  The answer is the events of the round
    and the loop variables of the next one, [None] when the goroutine
    returns. *)
Definition sigwinch_iter (termWidth termHeight : Z) (sig : Notification)
  : list Event * option (Z * Z) :=
  match sig with
  | NilSignal => ([], None)
  | Sigwinch currTermWidth currTermHeight err =>
      if bool_decide (currTermHeight = termHeight) && bool_decide (currTermWidth = termWidth)
      then ([EvGetSize], Some (termWidth, termHeight))
      else
        match err with
        | Some e =>
            ([EvGetSize; EvWindowChange currTermHeight currTermWidth;
              EvPrint ("Unable to send window-change request: " +:+ e +:+ ".")],
             Some (termWidth, termHeight))
        | None =>
            ([EvGetSize; EvWindowChange currTermHeight currTermWidth],
             Some (currTermWidth, currTermHeight))
        end
  end.

(** The loop over the notifications received so far. *)
Fixpoint sigwinch_loop (termWidth termHeight : Z) (sigs : list Notification)
  : list Event * option (Z * Z) :=
  match sigs with
  | [] => ([], Some (termWidth, termHeight))
  | sig :: sigs' =>
      match sigwinch_iter termWidth termHeight sig with
      | (evs, None) => (evs, None)
      | (evs, Some (w, h)) =>
          let '(evs', next) := sigwinch_loop w h sigs' in (evs ++ evs', next)
      end
  end.

(** The resize requests among some events, as (height, width) pairs. *)
Definition resize_requests (evs : list Event) : list (Z * Z) :=
  omap (fun e => match e with EvWindowChange h w => Some (h, w) | _ => None end) evs.

(** ** The interactive session, lines 152-240 *)

(** Where the goroutine running [interactiveSession] stands; each
    constructor is the statement about to run. *)
Inductive Pc :=
| PcDeferExitMsg                              (* defer func() {...}(), line 153 *)
| PcMakeRaw                                   (* term.MakeRaw, line 162 *)
| PcGetSize                                   (* term.GetSize, line 168 *)
| PcRequestPty (termWidth termHeight : Z)     (* lines 173-178 *)
| PcUpdateTerminalSize                        (* line 183 *)
| PcStdinPipe                                 (* line 185 *)
| PcStdoutPipe                                (* line 189 *)
| PcStderrPipe                                (* line 193 *)
| PcWgAdd                                     (* wg.Add(2), line 199 *)
| PcGoStderr                                  (* line 201 *)
| PcGoStdout                                  (* line 205 *)
| PcGoStdin                                   (* line 211 *)
| PcShell                                     (* line 230 *)
| PcWgWait                                    (* line 234 *)
| PcSessionWait                               (* line 235 *)
| PcReturn (err : option error)               (* a return: deferred calls run *)
| PcDone (err : option error).                (* the function has returned *)

(** A deferred call. *)
Inductive Deferred :=
| DExitMsg                       (* the closure of line 153 *)
| DRestore (state : TermState).  (* term.Restore(fd, state), line 166 *)

(** A goroutine started with [go func() {...}()]. *)
Inductive Status := Idle | Running | Finished.

(** Where the input goroutine stands inside a round of its loop: at the
    read of line 214, or, after a failed write, before one of the two
    statements that follow it. *)
Inductive RelayPc :=
| AtRead
| AtPrintln (e : error)                       (* line 222 *)
| AtSetExitMsg (e : error).                   (* line 223 *)

(** The goroutine of [updateTerminalSize]. *)
Inductive WatcherPc :=
| WIdle
| WStart                                      (* lines 116-123 *)
| WLoop (termWidth termHeight : Z)            (* the for/select loop *)
| WReturned.

(** The [SSHTerminal] value [t], the wait group, the goroutines with the
    input each has still to consume, and the trace so far. *)
Record State := {
  pc : Pc;
  defers : list Deferred;
  exitMsg : string;
  t_stdin : bool;
  t_stdout : bool;
  t_stderr : bool;
  wg : Z;
  stderrCopy : Status;
  stderrSrc : list bytes;
  stdoutCopy : Status;
  stdoutSrc : list bytes;
  stdinRelay : Status;
  stdinSrc : list ReadResult;
  writeRes : list (option error);
  relayPc : RelayPc;
  stderrWr : list (option error);
  stdoutWr : list (option error);
  watcher : WatcherPc;
  signals : list Notification;
  trace : list Event
}.

Definition goto (p : Pc) (st : State) : State :=
  {| pc := p; defers := defers st; exitMsg := exitMsg st;
     t_stdin := t_stdin st; t_stdout := t_stdout st; t_stderr := t_stderr st;
     wg := wg st;
     stderrCopy := stderrCopy st; stderrSrc := stderrSrc st;
     stdoutCopy := stdoutCopy st; stdoutSrc := stdoutSrc st;
     stdinRelay := stdinRelay st; stdinSrc := stdinSrc st; writeRes := writeRes st;
     relayPc := relayPc st; stderrWr := stderrWr st; stdoutWr := stdoutWr st;
     watcher := watcher st; signals := signals st; trace := trace st |}.

Definition set_defers (ds : list Deferred) (st : State) : State :=
  {| pc := pc st; defers := ds; exitMsg := exitMsg st;
     t_stdin := t_stdin st; t_stdout := t_stdout st; t_stderr := t_stderr st;
     wg := wg st;
     stderrCopy := stderrCopy st; stderrSrc := stderrSrc st;
     stdoutCopy := stdoutCopy st; stdoutSrc := stdoutSrc st;
     stdinRelay := stdinRelay st; stdinSrc := stdinSrc st; writeRes := writeRes st;
     relayPc := relayPc st; stderrWr := stderrWr st; stdoutWr := stdoutWr st;
     watcher := watcher st; signals := signals st; trace := trace st |}.

Definition set_exitMsg (m : string) (st : State) : State :=
  {| pc := pc st; defers := defers st; exitMsg := m;
     t_stdin := t_stdin st; t_stdout := t_stdout st; t_stderr := t_stderr st;
     wg := wg st;
     stderrCopy := stderrCopy st; stderrSrc := stderrSrc st;
     stdoutCopy := stdoutCopy st; stdoutSrc := stdoutSrc st;
     stdinRelay := stdinRelay st; stdinSrc := stdinSrc st; writeRes := writeRes st;
     relayPc := relayPc st; stderrWr := stderrWr st; stdoutWr := stdoutWr st;
     watcher := watcher st; signals := signals st; trace := trace st |}.

Definition set_pipes (i o e : bool) (st : State) : State :=
  {| pc := pc st; defers := defers st; exitMsg := exitMsg st;
     t_stdin := i; t_stdout := o; t_stderr := e;
     wg := wg st;
     stderrCopy := stderrCopy st; stderrSrc := stderrSrc st;
     stdoutCopy := stdoutCopy st; stdoutSrc := stdoutSrc st;
     stdinRelay := stdinRelay st; stdinSrc := stdinSrc st; writeRes := writeRes st;
     relayPc := relayPc st; stderrWr := stderrWr st; stdoutWr := stdoutWr st;
     watcher := watcher st; signals := signals st; trace := trace st |}.

Definition set_wg (n : Z) (st : State) : State :=
  {| pc := pc st; defers := defers st; exitMsg := exitMsg st;
     t_stdin := t_stdin st; t_stdout := t_stdout st; t_stderr := t_stderr st;
     wg := n;
     stderrCopy := stderrCopy st; stderrSrc := stderrSrc st;
     stdoutCopy := stdoutCopy st; stdoutSrc := stdoutSrc st;
     stdinRelay := stdinRelay st; stdinSrc := stdinSrc st; writeRes := writeRes st;
     relayPc := relayPc st; stderrWr := stderrWr st; stdoutWr := stdoutWr st;
     watcher := watcher st; signals := signals st; trace := trace st |}.

Definition set_stderrCopy (s : Status) (src : list bytes) (st : State) : State :=
  {| pc := pc st; defers := defers st; exitMsg := exitMsg st;
     t_stdin := t_stdin st; t_stdout := t_stdout st; t_stderr := t_stderr st;
     wg := wg st;
     stderrCopy := s; stderrSrc := src;
     stdoutCopy := stdoutCopy st; stdoutSrc := stdoutSrc st;
     stdinRelay := stdinRelay st; stdinSrc := stdinSrc st; writeRes := writeRes st;
     relayPc := relayPc st; stderrWr := stderrWr st; stdoutWr := stdoutWr st;
     watcher := watcher st; signals := signals st; trace := trace st |}.

Definition set_stdoutCopy (s : Status) (src : list bytes) (st : State) : State :=
  {| pc := pc st; defers := defers st; exitMsg := exitMsg st;
     t_stdin := t_stdin st; t_stdout := t_stdout st; t_stderr := t_stderr st;
     wg := wg st;
     stderrCopy := stderrCopy st; stderrSrc := stderrSrc st;
     stdoutCopy := s; stdoutSrc := src;
     stdinRelay := stdinRelay st; stdinSrc := stdinSrc st; writeRes := writeRes st;
     relayPc := relayPc st; stderrWr := stderrWr st; stdoutWr := stdoutWr st;
     watcher := watcher st; signals := signals st; trace := trace st |}.

Definition set_stdinRelay (s : Status) (src : list ReadResult)
    (wr : list (option error)) (st : State) : State :=
  {| pc := pc st; defers := defers st; exitMsg := exitMsg st;
     t_stdin := t_stdin st; t_stdout := t_stdout st; t_stderr := t_stderr st;
     wg := wg st;
     stderrCopy := stderrCopy st; stderrSrc := stderrSrc st;
     stdoutCopy := stdoutCopy st; stdoutSrc := stdoutSrc st;
     stdinRelay := s; stdinSrc := src; writeRes := wr;
     relayPc := relayPc st; stderrWr := stderrWr st; stdoutWr := stdoutWr st;
     watcher := watcher st; signals := signals st; trace := trace st |}.

Definition set_relayPc (p : RelayPc) (st : State) : State :=
  {| pc := pc st; defers := defers st; exitMsg := exitMsg st;
     t_stdin := t_stdin st; t_stdout := t_stdout st; t_stderr := t_stderr st;
     wg := wg st;
     stderrCopy := stderrCopy st; stderrSrc := stderrSrc st;
     stdoutCopy := stdoutCopy st; stdoutSrc := stdoutSrc st;
     stdinRelay := stdinRelay st; stdinSrc := stdinSrc st; writeRes := writeRes st;
     relayPc := p; stderrWr := stderrWr st; stdoutWr := stdoutWr st;
     watcher := watcher st; signals := signals st; trace := trace st |}.

Definition set_stderrWr (wr : list (option error)) (st : State) : State :=
  {| pc := pc st; defers := defers st; exitMsg := exitMsg st;
     t_stdin := t_stdin st; t_stdout := t_stdout st; t_stderr := t_stderr st;
     wg := wg st;
     stderrCopy := stderrCopy st; stderrSrc := stderrSrc st;
     stdoutCopy := stdoutCopy st; stdoutSrc := stdoutSrc st;
     stdinRelay := stdinRelay st; stdinSrc := stdinSrc st; writeRes := writeRes st;
     relayPc := relayPc st; stderrWr := wr; stdoutWr := stdoutWr st;
     watcher := watcher st; signals := signals st; trace := trace st |}.

Definition set_stdoutWr (wr : list (option error)) (st : State) : State :=
  {| pc := pc st; defers := defers st; exitMsg := exitMsg st;
     t_stdin := t_stdin st; t_stdout := t_stdout st; t_stderr := t_stderr st;
     wg := wg st;
     stderrCopy := stderrCopy st; stderrSrc := stderrSrc st;
     stdoutCopy := stdoutCopy st; stdoutSrc := stdoutSrc st;
     stdinRelay := stdinRelay st; stdinSrc := stdinSrc st; writeRes := writeRes st;
     relayPc := relayPc st; stderrWr := stderrWr st; stdoutWr := wr;
     watcher := watcher st; signals := signals st; trace := trace st |}.

Definition set_watcher (p : WatcherPc) (sigs : list Notification) (st : State) : State :=
  {| pc := pc st; defers := defers st; exitMsg := exitMsg st;
     t_stdin := t_stdin st; t_stdout := t_stdout st; t_stderr := t_stderr st;
     wg := wg st;
     stderrCopy := stderrCopy st; stderrSrc := stderrSrc st;
     stdoutCopy := stdoutCopy st; stdoutSrc := stdoutSrc st;
     stdinRelay := stdinRelay st; stdinSrc := stdinSrc st; writeRes := writeRes st;
     relayPc := relayPc st; stderrWr := stderrWr st; stdoutWr := stdoutWr st;
     watcher := p; signals := sigs; trace := trace st |}.

(** Append events to the trace. *)
Definition emit (evs : list Event) (st : State) : State :=
  {| pc := pc st; defers := defers st; exitMsg := exitMsg st;
     t_stdin := t_stdin st; t_stdout := t_stdout st; t_stderr := t_stderr st;
     wg := wg st;
     stderrCopy := stderrCopy st; stderrSrc := stderrSrc st;
     stdoutCopy := stdoutCopy st; stdoutSrc := stdoutSrc st;
     stdinRelay := stdinRelay st; stdinSrc := stdinSrc st; writeRes := writeRes st;
     relayPc := relayPc st; stderrWr := stderrWr st; stdoutWr := stdoutWr st;
     watcher := watcher st; signals := signals st; trace := trace st ++ evs |}.

(** [defer d]: the deferred calls run last-registered first. *)
Definition push_defer (d : Deferred) (st : State) : State :=
  set_defers (d :: defers st) st.

(** [if err != nil { return err }] after a call that answered [err]. *)
Definition check (err : option error) (next : Pc) (st : State) : State :=
  match err with
  | Some e => goto (PcReturn (Some e)) st
  | None => goto next st
  end.

(** The text of the default final message, line 155. *)
Definition closed_msg (w : World) : string :=
  "the connection was closed on the remote side on " +:+ " " +:+ time_Now_RFC822 w +:+ nl.

(** The closure deferred at line 153.  It tests [t.exitMsg] at line 154
    and reads it again at line 157; the field is assigned at most once,
    at line 223, so a run of the closure that prints the field has read
    the same text twice, and the closure is one step. *)
Definition exit_message (w : World) (st : State) : string :=
  if bool_decide (exitMsg st = "") then closed_msg w else exitMsg st +:+ nl.

Definition run_deferred (w : World) (d : Deferred) (st : State) : State :=
  match d with
  | DExitMsg => emit [EvExitMsg (exit_message w st)] st
  | DRestore state => emit [EvRestore state] st
  end.

(** One step of the goroutine that runs [interactiveSession]; [None] when
    it cannot move: blocked in [wg.Wait()], or returned. *)
Definition step_main (w : World) (s : Session) (st : State) : option State :=
  match pc st with
  | PcDeferExitMsg => Some (goto PcMakeRaw (push_defer DExitMsg st))
  | PcMakeRaw =>
      match term_MakeRaw w with
      | Err e => Some (goto (PcReturn (Some e)) (emit [EvMakeRaw] st))
      | Ok state =>
          Some (goto PcGetSize (push_defer (DRestore state) (emit [EvMakeRaw] st)))
      end
  | PcGetSize =>
      let '(termWidth, termHeight, err) := term_GetSize w in
      Some (check err (PcRequestPty termWidth termHeight) (emit [EvGetSize] st))
  | PcRequestPty termWidth termHeight =>
      let termType :=
        if bool_decide (os_Getenv_TERM w = "") then "xterm-256color" else os_Getenv_TERM w in
      Some (check (RequestPty s termType termHeight termWidth) PcUpdateTerminalSize
              (emit [EvRequestPty termType termHeight termWidth] st))
  | PcUpdateTerminalSize =>
      Some (goto PcStdinPipe (set_watcher WStart (signals st) (emit [EvGo TWinch] st)))
  | PcStdinPipe =>
      Some (check (StdinPipe s) PcStdoutPipe
              (set_pipes (bool_decide (StdinPipe s = None)) (t_stdout st) (t_stderr st)
                 (emit [EvStdinPipe] st)))
  | PcStdoutPipe =>
      Some (check (StdoutPipe s) PcStderrPipe
              (set_pipes (t_stdin st) (bool_decide (StdoutPipe s = None)) (t_stderr st)
                 (emit [EvStdoutPipe] st)))
  | PcStderrPipe =>
      Some (check (StderrPipe s) PcWgAdd
              (set_pipes (t_stdin st) (t_stdout st) (bool_decide (StderrPipe s = None))
                 (emit [EvStderrPipe] st)))
  | PcWgAdd => Some (goto PcGoStderr (set_wg (wg st + 2) st))
  | PcGoStderr =>
      Some (goto PcGoStdout (set_stderrCopy Running (stderrSrc st) (emit [EvGo TStderr] st)))
  | PcGoStdout =>
      Some (goto PcGoStdin (set_stdoutCopy Running (stdoutSrc st) (emit [EvGo TStdout] st)))
  | PcGoStdin =>
      Some (goto PcShell
              (set_stdinRelay Running (stdinSrc st) (writeRes st) (emit [EvGo TStdin] st)))
  | PcShell => Some (check (Shell s) PcWgWait (emit [EvShell] st))
  | PcWgWait =>
      if bool_decide (wg st = 0%Z)
      then Some (goto PcSessionWait (emit [EvWgWait] st))
      else None
  | PcSessionWait => Some (goto (PcReturn (Wait s)) (emit [EvSessionWait] st))
  | PcReturn err =>
      match defers st with
      | d :: ds => Some (set_defers ds (run_deferred w d st))
      | [] => Some (goto (PcDone err) st)
      end
  | PcDone _ => None
  end.

(** The answer to the next write on a stream, and the answers left. *)
Definition next_write (wr : list (option error)) : option error * list (option error) :=
  match wr with
  | [] => (None, [])
  | r :: wr' => (r, wr')
  end.

(** [io.Copy(os.Stderr, t.stderr)] followed by the deferred [wg.Done()],
    lines 201-204.  A step copies one chunk, or ends the goroutine:
    [io.Copy] returns when the stream can be read no further or when a
    write to [os.Stderr] fails, its error is discarded (line 203) and
    [wg.Done()] runs either way.  A chunk whose write failed is not
    logged and stays in [stderrSrc] with what was not read. *)
Definition step_stderr (st : State) : option State :=
  match stderrCopy st with
  | Running =>
      match stderrSrc st with
      | chunk :: rest =>
          match next_write (stderrWr st) with
          | (None, wr) =>
              Some (set_stderrWr wr
                      (set_stderrCopy Running rest (emit [EvCopy TStderr chunk] st)))
          | (Some _, wr) =>
              Some (set_wg (wg st - 1)
                      (set_stderrWr wr
                         (set_stderrCopy Finished (chunk :: rest)
                            (emit [EvWgDone TStderr] st))))
          end
      | [] =>
          Some (set_wg (wg st - 1) (set_stderrCopy Finished [] (emit [EvWgDone TStderr] st)))
      end
  | _ => None
  end.

(** [io.Copy(os.Stdout, t.stdout)] and [wg.Done()], lines 205-208, in the
    same way. *)
Definition step_stdout (st : State) : option State :=
  match stdoutCopy st with
  | Running =>
      match stdoutSrc st with
      | chunk :: rest =>
          match next_write (stdoutWr st) with
          | (None, wr) =>
              Some (set_stdoutWr wr
                      (set_stdoutCopy Running rest (emit [EvCopy TStdout chunk] st)))
          | (Some _, wr) =>
              Some (set_wg (wg st - 1)
                      (set_stdoutWr wr
                         (set_stdoutCopy Finished (chunk :: rest)
                            (emit [EvWgDone TStdout] st))))
          end
      | [] =>
          Some (set_wg (wg st - 1) (set_stdoutCopy Finished [] (emit [EvWgDone TStdout] st)))
      end
  | _ => None
  end.

(** The read of line 214 with result [r] and what follows it up to the
    write of line 220: a failed read is printed and ends the goroutine;
    a read that gave bytes is followed by their write.  After a failed
    write the goroutine stands before line 222: the printing of the
    error and its recording in [t.exitMsg] are steps of their own, and
    the other goroutines can run before each of them. *)
Definition stdin_iter (r : ReadResult) (rest : list ReadResult) (st : State) : State :=
  match rd_err r with
  | Some e =>
      set_stdinRelay Finished rest (writeRes st) (emit [EvPrint (e +:+ nl)] st)
  | None =>
      if (0 <? rd_n r)%Z then
        let chunk := take (Z.to_nat (rd_n r)) (rd_buf r) in
        match next_write (writeRes st) with
        | (Some e, wr) =>
            set_relayPc (AtPrintln e)
              (set_stdinRelay Running rest wr (emit [EvStdinWrite chunk (Some e)] st))
        | (None, wr) =>
            set_stdinRelay Running rest wr (emit [EvStdinWrite chunk None] st)
        end
      else set_stdinRelay Running rest (writeRes st) st
  end.

(** The input goroutine, lines 211-228; blocked while nothing can be read. *)
Definition step_stdin (st : State) : option State :=
  match stdinRelay st with
  | Running =>
      match relayPc st with
      | AtRead =>
          match stdinSrc st with
          | r :: rest => Some (stdin_iter r rest st)
          | [] => None
          end
      | AtPrintln e =>
          Some (set_relayPc (AtSetExitMsg e) (emit [EvPrint (e +:+ nl)] st))
      | AtSetExitMsg e =>
          Some (set_stdinRelay Finished (stdinSrc st) (writeRes st)
                  (set_exitMsg e (emit [EvSetExitMsg e] st)))
      end
  | _ => None
  end.

(** The goroutine of [updateTerminalSize], lines 114-149. *)
Definition step_winch (w : World) (st : State) : option State :=
  match watcher st with
  | WStart =>
      let '(termWidth, termHeight, err) := watcher_GetSize w in
      Some (set_watcher (WLoop termWidth termHeight) (signals st)
              (emit (EvGetSize :: match err with
                                  | Some e => [EvPrint (e +:+ nl)]
                                  | None => []
                                  end) st))
  | WLoop termWidth termHeight =>
      match signals st with
      | sig :: rest =>
          let '(evs, next) := sigwinch_iter termWidth termHeight sig in
          Some (set_watcher (match next with
                             | Some (w', h') => WLoop w' h'
                             | None => WReturned
                             end) rest (emit evs st))
      | [] => None
      end
  | _ => None
  end.

Definition step (w : World) (s : Session) (t : tid) (st : State) : option State :=
  match t with
  | TMain => step_main w s st
  | TStderr => step_stderr st
  | TStdout => step_stdout st
  | TStdin => step_stdin st
  | TWinch => step_winch w st
  end.

(** The scheduler picks a goroutine; picking one that cannot move changes
    nothing. *)
Definition sched_step (w : World) (s : Session) (st : State) (t : tid) : State :=
  default st (step w s t st).

Definition run (w : World) (s : Session) (sched : list tid) (st : State) : State :=
  foldl (sched_step w s) st sched.

(** The state in which [connectToServer] calls [s.interactiveSession()]. *)
Definition init (w : World) (s : Session) : State :=
  {| pc := PcDeferExitMsg; defers := []; exitMsg := "";
     t_stdin := false; t_stdout := false; t_stderr := false;
     wg := 0;
     stderrCopy := Idle; stderrSrc := remote_stderr s;
     stdoutCopy := Idle; stdoutSrc := remote_stdout s;
     stdinRelay := Idle; stdinSrc := os_Stdin_Read w; writeRes := stdin_Write s;
     relayPc := AtRead; stderrWr := os_Stderr_Write w; stdoutWr := os_Stdout_Write w;
     watcher := WIdle; signals := sigwinchCh w; trace := [] |}.

(** What [interactiveSession] returns under a schedule, if it returns. *)
Definition returned (st : State) : option (option error) :=
  match pc st with
  | PcDone err => Some err
  | _ => None
  end.

Definition interactiveSession (w : World) (s : Session) (sched : list tid)
  : list Event * option (option error) :=
  let st := run w s sched (init w s) in (trace st, returned st).

(** ** The transport connector, lines 59-111 *)

Definition getHomeDir (w : World) : result string :=
  match user_Current w with
  | Err e => Err e
  | Ok homeDir => Ok homeDir
  end.

(** The key path of line 80. *)
Definition keyPath (server : Server) (homeDir : string) : string :=
  strings_Replace (PrivateKey server) "~" homeDir 1.

(** Lines 74-92: the authentication methods, or the error returned. *)
Definition authMethods (w : World) (server : Server)
  : list Event * result (list AuthMethod) :=
  if UseKey server then
    match getHomeDir w with
    | Err e => ([], Err ("failed to get home directory: " +:+ e))
    | Ok homeDir =>
        let keyPath := keyPath server homeDir in
        match os_ReadFile w keyPath with
        | Err e =>
            ([EvReadFile keyPath],
             Err ("failed to read private key " +:+ keyPath +:+ ": " +:+ e))
        | Ok key =>
            match ssh_ParsePrivateKey w key with
            | Err e =>
                ([EvReadFile keyPath],
                 Err ("failed to parse private key " +:+ keyPath +:+ ": " +:+ e))
            | Ok privateKey => ([EvReadFile keyPath], Ok ([] ++ [PublicKeys privateKey]))
            end
        end
    end
  else if bool_decide (Password server ≠ "")
       then ([], Ok ([] ++ [PasswordAuth (Password server)]))
       else ([], Ok []).

(** How a call ends: it returns, it panics, or it never returns. *)
Inductive Outcome (A : Type) : Type :=
| Returned (a : A)
| Panicked (msg : string)
| Hung.
Arguments Returned {A} a.
Arguments Panicked {A} msg.
Arguments Hung {A}.

Definition connectToServer (w : World) (server : Server) (sched : list tid)
  : list Event * Outcome (option error) :=
  match authMethods w server with
  | (tr, Err e) => (tr, Returned (Some e))
  | (tr, Ok auth) =>
      let sshConfig :=
        {| cfgUser := User server; cfgAuth := auth;
           cfgHostKeyCallback := InsecureIgnoreHostKey |} in
      let address := Address server +:+ ":" +:+ pretty (Port server) in
      let tr := tr ++ [EvDial "tcp" address sshConfig] in
      match ssh_Dial w "tcp" address sshConfig with
      | Err e =>
          (tr, Returned (Some ("failed to connect to server " +:+ address +:+ ": " +:+ e)))
      | Ok client =>
          let tr := tr ++ [EvNewSession] in
          match NewSession client with
          | Err e =>
              (tr ++ [EvClientClose],
               Returned (Some ("failed to create session on server " +:+ address
                               +:+ ": " +:+ e)))
          | Ok session =>
              match interactiveSession w session sched with
              | (tr', Some err) =>
                  (tr ++ tr' ++ [EvSessionClose; EvClientClose], Returned err)
              | (tr', None) => (tr ++ tr', Hung)
              end
          end
      end
  end.

(** ** Server selection and [main], lines 43-57 and 242-304 *)

Definition loadConfig (w : World) (filename : string) : list Event * result Config :=
  match os_Open w filename with
  | Err e => ([EvOpen filename], Err e)
  | Ok file =>
      match json_Decode w file with
      | Err e => ([EvOpen filename; EvFileClose], Err e)
      | Ok config => ([EvOpen filename; EvFileClose], Ok config)
      end
  end.

(** A [for ... range] loop that keeps the first server passing the test. *)
Fixpoint first_match (test : Server -> bool) (servers : list Server) : option Server :=
  match servers with
  | [] => None
  | server :: rest => if test server then Some server else first_match test rest
  end.

(** Lines 259-274: selection by the [-alias] or the [-ip] flag. *)
Definition select_by_flags (w : World) (args : Flags) (config : Config) : option Server :=
  if bool_decide (aliasFlag args ≠ "") then
    first_match (fun server => strings_EqualFold w (Alias server) (aliasFlag args))
      (Servers config)
  else if bool_decide (ipFlag args ≠ "") then
    first_match (fun server => bool_decide (Address server = ipFlag args)) (Servers config)
  else None.

(** The lines of the numbered list, line 280. *)
Definition menu (servers : list Server) : list Event :=
  imap (fun i server =>
          EvPrint (pretty (Z.of_nat i + 1)%Z +:+ ". " +:+ Alias server +:+ " ("
                   +:+ Address server +:+ ":" +:+ pretty (Port server) +:+ ")" +:+ nl))
    servers.

(** Lines 277-291: the interactive selection. *)
Definition select_interactive (w : World) (config : Config) : list Event * option Server :=
  let choice := strings_TrimSpace w (strings_ToLower w (fmt_Scanln w)) in
  (EvPrint ("Please select a server to connect to:" +:+ nl) :: menu (Servers config),
   first_match (fun server => bool_decide (strings_ToLower w (Alias server) = choice))
     (Servers config)).

(** Lines 256-296: the server [main] connects to; [None] when indexing
    [config.Servers[0]] panics. *)
Definition selectServer (w : World) (args : Flags) (config : Config)
  : list Event * option Server :=
  let '(tr, selectedServer) :=
    match select_by_flags w args config with
    | Some server => ([], Some server)
    | None => select_interactive w config
    end in
  match selectedServer with
  | Some server => (tr, Some server)
  | None => (tr, Servers config !! 0%nat)
  end.

(** [main] from line 250 on.  [args] holds the three flags as
    [flag.Parse()], line 247, has left them.  A command line that
    [flag.Parse()] refuses never comes this far: the flag library ends
    the process itself, and such a run is not a run of this function. *)
Definition main (w : World) (args : Flags) (sched : list tid)
  : list Event * Outcome unit :=
  match loadConfig w (configFile args) with
  | (tr, Err e) => (tr ++ [EvPrint ("Error loading config: " +:+ e +:+ nl)], Returned tt)
  | (tr, Ok config) =>
      match selectServer w args config with
      | (tr', None) =>
          (tr ++ tr', Panicked "runtime error: index out of range [0] with length 0")
      | (tr', Some selectedServer) =>
          let tr :=
            tr ++ tr' ++
            [EvPrint ("Connecting to " +:+ Alias selectedServer +:+ " ("
                      +:+ Address selectedServer +:+ ":" +:+ pretty (Port selectedServer)
                      +:+ ")..." +:+ nl)] in
          match connectToServer w selectedServer sched with
          | (tr', Returned (Some e)) =>
              (tr ++ tr' ++ [EvPrint ("Error: " +:+ e +:+ nl)], Returned tt)
          | (tr', Returned None) => (tr ++ tr', Returned tt)
          | (tr', Panicked msg) => (tr ++ tr', Panicked msg)
          | (tr', Hung) => (tr ++ tr', Hung)
          end
      end
  end.

(** The exit status of the process once [flag.Parse()] has accepted the
    command line: 0 when [main] returns, 2 when the Go runtime reports a
    panic, none while the program is still running. *)
Definition exit_status (o : Outcome unit) : option Z :=
  match o with
  | Returned _ => Some 0%Z
  | Panicked _ => Some 2%Z
  | Hung => None
  end.

(** ** A sample inventory and sample machines *)

(** The target of the specification's scenarios. *)
Definition db1 : Server :=
  {| Alias := "db1"; Address := "10.0.0.5"; Port := 22; User := "ops";
     Password := ""; PrivateKey := "~/.ssh/id_ed25519"; UseKey := true |}.

(** A target without key and without password. *)
Definition bare : Server :=
  {| Alias := "bare"; Address := "10.0.0.6"; Port := 2222; User := "ops";
     Password := ""; PrivateKey := ""; UseKey := false |}.

(** A remote side that accepts every request and whose shell prints one
    chunk on standard output and then exits. *)
Definition quiet_session : Session :=
  {| RequestPty := fun _ _ _ => None;
     StdinPipe := None; StdoutPipe := None; StderrPipe := None;
     Shell := None; Wait := None;
     remote_stdout := [[x24; x20]]; remote_stderr := [];
     stdin_Write := [] |}.

(** A machine on which every call succeeds. *)
Definition sample_world : World :=
  {| os_Open := fun _ => Ok [];
     json_Decode := fun _ => Ok {| Servers := [db1; bare] |};
     fmt_Scanln := "";
     strings_EqualFold := String.eqb;
     strings_ToLower := fun s => s;
     strings_TrimSpace := fun s => s;
     user_Current := Ok "/home/me";
     os_ReadFile := fun _ => Ok [];
     ssh_ParsePrivateKey := fun _ => Ok (MkSigner "SHA256:db1");
     ssh_Dial := fun _ _ _ => Ok {| NewSession := Ok quiet_session |};
     term_MakeRaw := Ok (Termios 0);
     term_GetSize := (80%Z, 24%Z, None);
     os_Getenv_TERM := "";
     watcher_GetSize := (80%Z, 24%Z, None);
     sigwinchCh := [Sigwinch 120 40 None; Sigwinch 120 40 None];
     os_Stdin_Read := [{| rd_n := 2; rd_buf := [x6c; x73; x00]; rd_err := None |}];
     os_Stdout_Write := []; os_Stderr_Write := [];
     time_Now_RFC822 := "02 Jan 06 15:04 MST" |}.

Definition no_flags : Flags :=
  {| configFile := "config.json"; aliasFlag := ""; ipFlag := "" |}.

(** A schedule that lets a session on [quiet_session] run to its end:
    the setup, the two output relays, then the wait and the return. *)
Definition full_schedule : list tid :=
  replicate 13 TMain ++ [TWinch; TStdin; TStdout; TStdout; TStderr] ++ replicate 5 TMain.

(** A machine whose inventory file cannot be opened. *)
Definition no_config_world : World :=
  {| os_Open := fun _ => Err "open config.json: no such file or directory";
     json_Decode := json_Decode sample_world;
     fmt_Scanln := fmt_Scanln sample_world;
     strings_EqualFold := strings_EqualFold sample_world;
     strings_ToLower := strings_ToLower sample_world;
     strings_TrimSpace := strings_TrimSpace sample_world;
     user_Current := user_Current sample_world;
     os_ReadFile := os_ReadFile sample_world;
     ssh_ParsePrivateKey := ssh_ParsePrivateKey sample_world;
     ssh_Dial := ssh_Dial sample_world;
     term_MakeRaw := term_MakeRaw sample_world;
     term_GetSize := term_GetSize sample_world;
     os_Getenv_TERM := os_Getenv_TERM sample_world;
     watcher_GetSize := watcher_GetSize sample_world;
     sigwinchCh := sigwinchCh sample_world;
     os_Stdin_Read := os_Stdin_Read sample_world;
     os_Stdout_Write := os_Stdout_Write sample_world;
     os_Stderr_Write := os_Stderr_Write sample_world;
     time_Now_RFC822 := time_Now_RFC822 sample_world |}.

(** A machine whose inventory lists no server. *)
Definition empty_inventory_world : World :=
  {| os_Open := os_Open sample_world;
     json_Decode := fun _ => Ok {| Servers := [] |};
     fmt_Scanln := fmt_Scanln sample_world;
     strings_EqualFold := strings_EqualFold sample_world;
     strings_ToLower := strings_ToLower sample_world;
     strings_TrimSpace := strings_TrimSpace sample_world;
     user_Current := user_Current sample_world;
     os_ReadFile := os_ReadFile sample_world;
     ssh_ParsePrivateKey := ssh_ParsePrivateKey sample_world;
     ssh_Dial := ssh_Dial sample_world;
     term_MakeRaw := term_MakeRaw sample_world;
     term_GetSize := term_GetSize sample_world;
     os_Getenv_TERM := os_Getenv_TERM sample_world;
     watcher_GetSize := watcher_GetSize sample_world;
     sigwinchCh := sigwinchCh sample_world;
     os_Stdin_Read := os_Stdin_Read sample_world;
     os_Stdout_Write := os_Stdout_Write sample_world;
     os_Stderr_Write := os_Stderr_Write sample_world;
     time_Now_RFC822 := time_Now_RFC822 sample_world |}.

(** A machine on which the private key file is missing. *)
Definition no_key_world : World :=
  {| os_Open := os_Open sample_world;
     json_Decode := json_Decode sample_world;
     fmt_Scanln := fmt_Scanln sample_world;
     strings_EqualFold := strings_EqualFold sample_world;
     strings_ToLower := strings_ToLower sample_world;
     strings_TrimSpace := strings_TrimSpace sample_world;
     user_Current := user_Current sample_world;
     os_ReadFile := fun _ => Err "no such file or directory";
     ssh_ParsePrivateKey := ssh_ParsePrivateKey sample_world;
     ssh_Dial := ssh_Dial sample_world;
     term_MakeRaw := term_MakeRaw sample_world;
     term_GetSize := term_GetSize sample_world;
     os_Getenv_TERM := os_Getenv_TERM sample_world;
     watcher_GetSize := watcher_GetSize sample_world;
     sigwinchCh := sigwinchCh sample_world;
     os_Stdin_Read := os_Stdin_Read sample_world;
     os_Stdout_Write := os_Stdout_Write sample_world;
     os_Stderr_Write := os_Stderr_Write sample_world;
     time_Now_RFC822 := time_Now_RFC822 sample_world |}.

(** A machine whose standard input is at its end. *)
Definition eof_read : ReadResult := {| rd_n := 0; rd_buf := []; rd_err := Some "EOF" |}.

Definition closed_stdin_world : World :=
  {| os_Open := os_Open sample_world;
     json_Decode := json_Decode sample_world;
     fmt_Scanln := fmt_Scanln sample_world;
     strings_EqualFold := strings_EqualFold sample_world;
     strings_ToLower := strings_ToLower sample_world;
     strings_TrimSpace := strings_TrimSpace sample_world;
     user_Current := user_Current sample_world;
     os_ReadFile := os_ReadFile sample_world;
     ssh_ParsePrivateKey := ssh_ParsePrivateKey sample_world;
     ssh_Dial := ssh_Dial sample_world;
     term_MakeRaw := term_MakeRaw sample_world;
     term_GetSize := term_GetSize sample_world;
     os_Getenv_TERM := os_Getenv_TERM sample_world;
     watcher_GetSize := watcher_GetSize sample_world;
     sigwinchCh := sigwinchCh sample_world;
     os_Stdin_Read := [eof_read];
     os_Stdout_Write := os_Stdout_Write sample_world;
     os_Stderr_Write := os_Stderr_Write sample_world;
     time_Now_RFC822 := time_Now_RFC822 sample_world |}.

(** A machine whose standard input is not a terminal. *)
Definition no_tty_world : World :=
  {| os_Open := os_Open sample_world;
     json_Decode := json_Decode sample_world;
     fmt_Scanln := fmt_Scanln sample_world;
     strings_EqualFold := strings_EqualFold sample_world;
     strings_ToLower := strings_ToLower sample_world;
     strings_TrimSpace := strings_TrimSpace sample_world;
     user_Current := user_Current sample_world;
     os_ReadFile := os_ReadFile sample_world;
     ssh_ParsePrivateKey := ssh_ParsePrivateKey sample_world;
     ssh_Dial := ssh_Dial sample_world;
     term_MakeRaw := Err "inappropriate ioctl for device";
     term_GetSize := term_GetSize sample_world;
     os_Getenv_TERM := os_Getenv_TERM sample_world;
     watcher_GetSize := watcher_GetSize sample_world;
     sigwinchCh := sigwinchCh sample_world;
     os_Stdin_Read := os_Stdin_Read sample_world;
     os_Stdout_Write := os_Stdout_Write sample_world;
     os_Stderr_Write := os_Stderr_Write sample_world;
     time_Now_RFC822 := time_Now_RFC822 sample_world |}.

(** A remote side that refuses the pseudo-terminal. *)
Definition pty_refused_session : Session :=
  {| RequestPty := fun _ _ _ => Some "ssh: pty-req failed";
     StdinPipe := None; StdoutPipe := None; StderrPipe := None;
     Shell := None; Wait := None;
     remote_stdout := []; remote_stderr := [];
     stdin_Write := [] |}.

(** A remote side whose stdin pipe breaks at the first write. *)
Definition broken_pipe_session : Session :=
  {| RequestPty := fun _ _ _ => None;
     StdinPipe := None; StdoutPipe := None; StderrPipe := None;
     Shell := None; Wait := None;
     remote_stdout := []; remote_stderr := [];
     stdin_Write := [Some "EOF"] |}.

(** A schedule under which the input relay never runs. *)
Definition output_only_schedule : list tid :=
  replicate 13 TMain ++ [TStdout; TStdout; TStderr] ++ replicate 5 TMain.

(** The schedule [full_schedule] with three steps of the input
    goroutine instead of one: a failed write, its printing and its
    recording all come before the return. *)
Definition recording_schedule : list tid :=
  replicate 13 TMain ++ [TWinch; TStdin; TStdin; TStdin; TStdout; TStdout; TStderr]
  ++ replicate 5 TMain.

(** A machine whose terminal is gone once the session runs: the size was
    80x24 when the watcher started, and each of the two notifications
    that follow finds [term.GetSize] failing, which answers 0x0 with its
    error. *)
Definition lost_tty_world : World :=
  {| os_Open := os_Open sample_world;
     json_Decode := json_Decode sample_world;
     fmt_Scanln := fmt_Scanln sample_world;
     strings_EqualFold := strings_EqualFold sample_world;
     strings_ToLower := strings_ToLower sample_world;
     strings_TrimSpace := strings_TrimSpace sample_world;
     user_Current := user_Current sample_world;
     os_ReadFile := os_ReadFile sample_world;
     ssh_ParsePrivateKey := ssh_ParsePrivateKey sample_world;
     ssh_Dial := ssh_Dial sample_world;
     term_MakeRaw := term_MakeRaw sample_world;
     term_GetSize := term_GetSize sample_world;
     os_Getenv_TERM := os_Getenv_TERM sample_world;
     watcher_GetSize := watcher_GetSize sample_world;
     sigwinchCh := [Sigwinch 0 0 (Some "inappropriate ioctl for device");
                    Sigwinch 0 0 (Some "inappropriate ioctl for device")];
     os_Stdin_Read := os_Stdin_Read sample_world;
     os_Stdout_Write := os_Stdout_Write sample_world;
     os_Stderr_Write := os_Stderr_Write sample_world;
     time_Now_RFC822 := time_Now_RFC822 sample_world |}.

(** A schedule that sets the session up and then lets the watcher start
    and handle two notifications. *)
Definition watcher_schedule : list tid :=
  replicate 13 TMain ++ [TWinch; TWinch; TWinch].

(** A target whose key path holds the marker in the middle. *)
Definition backup_key : Server :=
  {| Alias := "db2"; Address := "10.0.0.7"; Port := 22; User := "ops";
     Password := ""; PrivateKey := "/keys/id~rsa"; UseKey := true |}.

(** ** Properties used to state the results *)

(** Some stage of a run failed: the inventory could not be loaded, or the
    connection to the selected server returned an error. *)
Definition stage_failed (w : World) (args : Flags) (sched : list tid) : Prop :=
  (∃ e, (loadConfig w (configFile args)).2 = Err e) ∨
  (∃ config server e,
      (loadConfig w (configFile args)).2 = Ok config ∧
      (selectServer w args config).2 = Some server ∧
      (connectToServer w server sched).2 = Returned (Some e)).

(** The key file of a key-authenticated target cannot be used: reading it
    or parsing it fails with [e]. *)
Definition key_unusable (w : World) (server : Server) (homeDir : string) (e : error) : Prop :=
  os_ReadFile w (keyPath server homeDir) = Err e ∨
  ∃ key, os_ReadFile w (keyPath server homeDir) = Ok key ∧ ssh_ParsePrivateKey w key = Err e.

(** The string holds no home-directory marker. *)
Fixpoint no_marker (s : string) : Prop :=
  match s with
  | EmptyString => True
  | String c s' => c ≠ "~"%char ∧ no_marker s'
  end.

(** The sizes at which a sequence of successfully re-read sizes differs
    from the size before it, as (height, width) pairs. *)
Fixpoint size_changes (termWidth termHeight : Z) (sizes : list (Z * Z)) : list (Z * Z) :=
  match sizes with
  | [] => []
  | (w, h) :: sizes' =>
      if bool_decide (h = termHeight) && bool_decide (w = termWidth)
      then size_changes termWidth termHeight sizes'
      else (h, w) :: size_changes w h sizes'
  end.

(** ** Bookkeeping for the results *)

(** Counting the events of a kind. *)
Fixpoint count (f : Event → bool) (tr : list Event) : nat :=
  match tr with
  | [] => 0
  | e :: tr' => (if f e then 1 else 0) + count f tr'
  end.

Definition is_restore (e : Event) : bool :=
  match e with EvRestore _ => true | _ => false end.

Definition is_exit_msg (e : Event) : bool :=
  match e with EvExitMsg _ => true | _ => false end.

Definition is_make_raw (e : Event) : bool :=
  match e with EvMakeRaw => true | _ => false end.

(** Every event of kind [Q] comes after some event of kind [P]. *)
Definition precedes (P Q : Event → bool) (tr : list Event) : Prop :=
  ∀ pre e post, tr = pre ++ e :: post → Q e = true → 0 < count P pre.

Definition is_DRestore (d : Deferred) : bool :=
  match d with DRestore _ => true | DExitMsg => false end.

Definition is_DExitMsg (d : Deferred) : bool :=
  match d with DExitMsg => true | DRestore _ => false end.

(** Counting the pending deferred calls of a kind. *)
Fixpoint pending (f : Deferred → bool) (ds : list Deferred) : nat :=
  match ds with
  | [] => 0
  | d :: ds' => (if f d then 1 else 0) + pending f ds'
  end.

(** The stage of [interactiveSession]: the number of the statement about
    to run, 15 once it is returning. *)
Definition stage (p : Pc) : nat :=
  match p with
  | PcDeferExitMsg => 0
  | PcMakeRaw => 1
  | PcGetSize => 2
  | PcRequestPty _ _ => 3
  | PcUpdateTerminalSize => 4
  | PcStdinPipe => 5
  | PcStdoutPipe => 6
  | PcStderrPipe => 7
  | PcWgAdd => 8
  | PcGoStderr => 9
  | PcGoStdout => 10
  | PcGoStdin => 11
  | PcShell => 12
  | PcWgWait => 13
  | PcSessionWait => 14
  | PcReturn _ | PcDone _ => 15
  end.

(** *** The deferred calls *)

(** A pending, respectively performed, restoration is of the snapshot
    that [term.MakeRaw] returned. *)
Definition snapshot_pending (w : World) (d : Deferred) : Prop :=
  match d with
  | DRestore state => term_MakeRaw w = Ok state
  | DExitMsg => True
  end.

Definition snapshot_restored (w : World) (e : Event) : Prop :=
  match e with
  | EvRestore state => term_MakeRaw w = Ok state
  | _ => True
  end.

(** The ways out of [interactiveSession], with the value returned. *)
Inductive exit_path (w : World) (s : Session) : option error → Prop :=
| raw_mode_error e :
    term_MakeRaw w = Err e → exit_path w s (Some e)
| terminal_size_error e :
    (term_GetSize w).2 = Some e → exit_path w s (Some e)
| pty_request_error termType h w' e :
    RequestPty s termType h w' = Some e → exit_path w s (Some e)
| stream_open_error e :
    StdinPipe s = Some e ∨ StdoutPipe s = Some e ∨ StderrPipe s = Some e →
    exit_path w s (Some e)
| shell_start_error e :
    Shell s = Some e → exit_path w s (Some e)
| remote_exit :
    exit_path w s (Wait s).

(** Every deferred call is either still pending or has run, once. *)
Record defers_inv (w : World) (s : Session) (st : State) : Prop := {
  di_restore :
    count is_restore (trace st) + pending is_DRestore (defers st)
    = if stage (pc st) <=? 1 then 0
      else match term_MakeRaw w with Ok _ => 1 | Err _ => 0 end;
  di_exit_msg :
    count is_exit_msg (trace st) + pending is_DExitMsg (defers st)
    = if stage (pc st) =? 0 then 0 else 1;
  di_done : ∀ err, pc st = PcDone err → defers st = [];
  di_snapshot_pending : Forall (snapshot_pending w) (defers st);
  di_snapshot_restored : Forall (snapshot_restored w) (trace st);
  di_raw_pending : 0 < pending is_DRestore (defers st) → 0 < count is_make_raw (trace st);
  di_raw_first : precedes is_make_raw is_restore (trace st);
  di_exit_path : ∀ err, pc st = PcReturn err ∨ pc st = PcDone err → exit_path w s err
}.


(** *** The final message *)

(** The error a failed write to the stdin pipe answered. *)
Definition write_error (e : Event) : option error :=
  match e with
  | EvStdinWrite _ (Some err) => Some err
  | _ => None
  end.

(** The error of the first failed write to the stdin pipe along a trace,
    if any: what the input goroutine goes on to record as the Relay
    Result. *)
Definition relay_result (tr : list Event) : option error :=
  head (omap write_error tr).

(** The final message for what [t.exitMsg] holds: the recorded text, or
    the closed-by-remote-side text when nothing was recorded or when the
    text recorded is empty. *)
Definition final_message (w : World) (r : option error) : string :=
  match r with
  | Some e => if bool_decide (e = "") then closed_msg w else e +:+ nl
  | None => closed_msg w
  end.

(** The text assigned to [t.exitMsg], line 223. *)
Definition set_exit_msg (e : Event) : option error :=
  match e with
  | EvSetExitMsg msg => Some msg
  | _ => None
  end.

(** What has been recorded in [t.exitMsg] along a trace, if anything. *)
Definition recorded (tr : list Event) : option error :=
  head (omap set_exit_msg tr).

(** Every final message of a trace is the one for what was recorded in
    [t.exitMsg] before it. *)
Definition exit_msgs_ok (w : World) (tr : list Event) : Prop :=
  ∀ pre m post, tr = pre ++ EvExitMsg m :: post → m = final_message w (recorded pre).

(** What the input goroutine has still to do with a failed write. *)
Definition pending_error (st : State) : option error :=
  match stdinRelay st, relayPc st with
  | Running, AtPrintln e | Running, AtSetExitMsg e => Some e
  | _, _ => None
  end.

Record exit_msg_inv (w : World) (st : State) : Prop := {
  em_field : exitMsg st = default "" (recorded (trace st));
  em_idle : stage (pc st) ≤ 11 → stdinRelay st = Idle;
  em_at_read : stdinRelay st = Idle → relayPc st = AtRead;
  em_running :
    stdinRelay st ≠ Finished → relayPc st = AtRead → relay_result (trace st) = None;
  em_pending :
    ∀ e, pending_error st = Some e →
         relay_result (trace st) = Some e ∧ recorded (trace st) = None;
  em_nothing : stdinRelay st ≠ Finished → recorded (trace st) = None;
  em_recorded :
    ∀ e, recorded (trace st) = Some e → relay_result (trace st) = Some e;
  em_msgs : exit_msgs_ok w (trace st)
}.

(** *** The order of the session setup *)

Definition is_pty (e : Event) : bool :=
  match e with EvRequestPty _ _ _ => true | _ => false end.

Definition is_stdin_pipe (e : Event) : bool :=
  match e with EvStdinPipe => true | _ => false end.

Definition is_stdout_pipe (e : Event) : bool :=
  match e with EvStdoutPipe => true | _ => false end.

Definition is_stderr_pipe (e : Event) : bool :=
  match e with EvStderrPipe => true | _ => false end.

Definition is_shell (e : Event) : bool :=
  match e with EvShell => true | _ => false end.

Definition is_session_wait (e : Event) : bool :=
  match e with EvSessionWait => true | _ => false end.

(** The relay run by goroutine [t] has finished. *)
Definition is_wg_done (t : tid) (e : Event) : bool :=
  match e with EvWgDone t' => bool_decide (t' = t) | _ => false end.

(** What a finished output relay has taken off the wait group. *)
Definition done_count (s : Status) : Z :=
  match s with Finished => 1 | _ => 0 end.

Record order_inv (st : State) : Prop := {
  oi_pty : 4 ≤ stage (pc st) ≤ 14 → 0 < count is_pty (trace st);
  oi_stdin : 6 ≤ stage (pc st) ≤ 14 → 0 < count is_stdin_pipe (trace st);
  oi_stdout : 7 ≤ stage (pc st) ≤ 14 → 0 < count is_stdout_pipe (trace st);
  oi_stderr : 8 ≤ stage (pc st) ≤ 14 → 0 < count is_stderr_pipe (trace st);
  oi_shell : 13 ≤ stage (pc st) ≤ 14 → 0 < count is_shell (trace st);
  oi_waited :
    stage (pc st) = 14 → stderrCopy st = Finished ∧ stdoutCopy st = Finished;
  oi_wg0 : stage (pc st) ≤ 8 → wg st = 0%Z;
  oi_wg :
    9 ≤ stage (pc st) ≤ 14 →
    wg st = (2 - done_count (stderrCopy st) - done_count (stdoutCopy st))%Z;
  oi_stderr_idle : stage (pc st) ≤ 9 → stderrCopy st = Idle;
  oi_stdout_idle : stage (pc st) ≤ 10 → stdoutCopy st = Idle;
  oi_stderr_started : 10 ≤ stage (pc st) ≤ 14 → stderrCopy st ≠ Idle;
  oi_stdout_started : 11 ≤ stage (pc st) ≤ 14 → stdoutCopy st ≠ Idle;
  oi_stderr_done : stderrCopy st = Finished → 0 < count (is_wg_done TStderr) (trace st);
  oi_stdout_done : stdoutCopy st = Finished → 0 < count (is_wg_done TStdout) (trace st);
  oi_pty_stdin : precedes is_pty is_stdin_pipe (trace st);
  oi_pty_stdout : precedes is_pty is_stdout_pipe (trace st);
  oi_pty_stderr : precedes is_pty is_stderr_pipe (trace st);
  oi_stdin_shell : precedes is_stdin_pipe is_shell (trace st);
  oi_stdout_shell : precedes is_stdout_pipe is_shell (trace st);
  oi_stderr_shell : precedes is_stderr_pipe is_shell (trace st);
  oi_shell_wait : precedes is_shell is_session_wait (trace st);
  oi_stderr_wait : precedes (is_wg_done TStderr) is_session_wait (trace st);
  oi_stdout_wait : precedes (is_wg_done TStdout) is_session_wait (trace st)
}.

(** *** Dials *)

Definition is_dial (e : Event) : bool :=
  match e with EvDial _ _ _ => true | _ => false end.

(** *** Progress *)

(** What an output relay has still to do: its chunks and its end. *)
Definition todo (status : Status) (src : list bytes) : nat :=
  match status with
  | Finished => 0
  | _ => S (length src)
  end.

(** A bound on the steps [interactiveSession] and the two output relays
    have still to take before the function has returned. *)
Definition steps_left (st : State) : nat :=
  match pc st with
  | PcDone _ => 0
  | PcReturn _ => 1 + length (defers st)
  | p =>
      2 * (15 - stage p) + 2 + length (defers st)
      + todo (stderrCopy st) (stderrSrc st) + todo (stdoutCopy st) (stdoutSrc st)
  end.

(** ** Tactics *)

(** Membership in a trace written with [++] and [::]. *)
Ltac elem_of_trace :=
  repeat (setoid_rewrite elem_of_app || setoid_rewrite elem_of_cons
          || setoid_rewrite elem_of_nil);
  naive_solver.

(** Case analysis on the goroutine that moves and on the statement it
    runs. *)
Ltac step_cases H :=
  match type of H with
  | step _ _ ?t _ = Some _ =>
      destruct t;
      unfold step, step_main, step_stderr, step_stdout, step_stdin, stdin_iter,
        next_write, step_winch, sigwinch_iter, check, run_deferred, push_defer in H;
      repeat case_match; simplify_eq
  end.

(** Discharge the premise of a hypothesis when it is at hand. *)
Ltac feed H :=
  match type of H with
  | ?A → _ =>
      let Ha := fresh in
      assert (Ha : A); [first [lia | done]|]; specialize (H Ha); clear Ha
  end.

(** ** Further bookkeeping *)

Definition is_file_close (e : Event) : bool :=
  match e with EvFileClose => true | _ => false end.

Definition is_session_close (e : Event) : bool :=
  match e with EvSessionClose => true | _ => false end.

Definition is_client_close (e : Event) : bool :=
  match e with EvClientClose => true | _ => false end.

(** The events of [main], [loadConfig] and [connectToServer] themselves,
    as opposed to those of the session. *)
Definition connector_event (e : Event) : bool :=
  match e with
  | EvOpen _ | EvFileClose | EvReadFile _ | EvDial _ _ _ | EvNewSession
  | EvSessionClose | EvClientClose => true
  | _ => false
  end.

(** The flags with another [-ip] value. *)
Definition with_ip (ip : string) (args : Flags) : Flags :=
  {| configFile := configFile args; aliasFlag := aliasFlag args; ipFlag := ip |}.

(** An inventory that lists the alias [db1] twice. *)
Definition db1_again : Server :=
  {| Alias := "DB1"; Address := "10.0.0.9"; Port := 22; User := "root";
     Password := "secret"; PrivateKey := ""; UseKey := false |}.

Definition alias_flags : Flags :=
  {| configFile := "config.json"; aliasFlag := "db1"; ipFlag := "10.0.0.6" |}.

(** A machine on which the dial is refused. *)
Definition unreachable_world : World :=
  {| os_Open := os_Open sample_world;
     json_Decode := json_Decode sample_world;
     fmt_Scanln := fmt_Scanln sample_world;
     strings_EqualFold := strings_EqualFold sample_world;
     strings_ToLower := strings_ToLower sample_world;
     strings_TrimSpace := strings_TrimSpace sample_world;
     user_Current := user_Current sample_world;
     os_ReadFile := os_ReadFile sample_world;
     ssh_ParsePrivateKey := ssh_ParsePrivateKey sample_world;
     ssh_Dial := fun _ _ _ => Err "dial tcp 10.0.0.5:22: connect: connection refused";
     term_MakeRaw := term_MakeRaw sample_world;
     term_GetSize := term_GetSize sample_world;
     os_Getenv_TERM := os_Getenv_TERM sample_world;
     watcher_GetSize := watcher_GetSize sample_world;
     sigwinchCh := sigwinchCh sample_world;
     os_Stdin_Read := os_Stdin_Read sample_world;
     os_Stdout_Write := os_Stdout_Write sample_world;
     os_Stderr_Write := os_Stderr_Write sample_world;
     time_Now_RFC822 := time_Now_RFC822 sample_world |}.

Definition is_new_session (e : Event) : bool :=
  match e with EvNewSession => true | _ => false end.

(** The address of line 95. *)
Definition dial_address (server : Server) : string :=
  Address server +:+ ":" +:+ pretty (Port server).

(** The client [connectToServer] obtains, if the methods could be built
    and the dial succeeded. *)
Definition dialled (w : World) (server : Server) : option Client :=
  match (authMethods w server).2 with
  | Ok auth =>
      match ssh_Dial w "tcp" (dial_address server)
              {| cfgUser := User server; cfgAuth := auth;
                 cfgHostKeyCallback := InsecureIgnoreHostKey |} with
      | Ok client => Some client
      | Err _ => None
      end
  | Err _ => None
  end.

(** The session it obtains from that client, if any. *)
Definition opened_session (w : World) (server : Server) : option Session :=
  match dialled w server with
  | Some client =>
      match NewSession client with
      | Ok session => Some session
      | Err _ => None
      end
  | None => None
  end.

(** *** The parameters and the conditions of the session setup *)

(** The terminal type of lines 173-176. *)
Definition termType (w : World) : string :=
  if bool_decide (os_Getenv_TERM w = "") then "xterm-256color" else os_Getenv_TERM w.

(** Raw mode was entered, the size of the terminal was read and the
    remote side accepted the pseudo-terminal of that size. *)
Definition pty_accepted (w : World) (s : Session) : Prop :=
  ∃ state termWidth termHeight,
    term_MakeRaw w = Ok state ∧
    term_GetSize w = (termWidth, termHeight, None) ∧
    RequestPty s (termType w) termHeight termWidth = None.

Definition streams_opened (s : Session) : Prop :=
  StdinPipe s = None ∧ StdoutPipe s = None ∧ StderrPipe s = None.

(** What must hold when an event of the setup is seen. *)
Definition setup_event_ok (w : World) (s : Session) (e : Event) : Prop :=
  match e with
  | EvRequestPty ty h w' =>
      ty = termType w ∧ term_GetSize w = (w', h, None) ∧
      ∃ state, term_MakeRaw w = Ok state
  | EvGo TWinch | EvWindowChange _ _ => pty_accepted w s
  | EvGo _ | EvShell | EvWgWait | EvSessionWait | EvCopy _ _ | EvStdinWrite _ _ =>
      pty_accepted w s ∧ streams_opened s
  | _ => True
  end.

Definition is_window_change (e : Event) : bool :=
  match e with EvWindowChange _ _ => true | _ => false end.

Record setup_inv (w : World) (s : Session) (st : State) : Prop := {
  su_raw : 2 ≤ stage (pc st) ≤ 14 → ∃ state, term_MakeRaw w = Ok state;
  su_size : ∀ tw th, pc st = PcRequestPty tw th → term_GetSize w = (tw, th, None);
  su_pty : 4 ≤ stage (pc st) ≤ 14 → pty_accepted w s ∧ 0 < count is_pty (trace st);
  su_stdin : 6 ≤ stage (pc st) ≤ 14 → StdinPipe s = None;
  su_stdout : 7 ≤ stage (pc st) ≤ 14 → StdoutPipe s = None;
  su_stderr : 8 ≤ stage (pc st) ≤ 14 → StderrPipe s = None;
  su_no_pty : stage (pc st) ≤ 3 → count is_pty (trace st) = 0;
  su_one_pty : count is_pty (trace st) ≤ 1;
  su_winch_idle : stage (pc st) ≤ 4 → watcher st = WIdle;
  su_winch : watcher st ≠ WIdle → pty_accepted w s ∧ 0 < count is_pty (trace st);
  su_relays :
    stderrCopy st ≠ Idle ∨ stdoutCopy st ≠ Idle ∨ stdinRelay st ≠ Idle →
    pty_accepted w s ∧ streams_opened s;
  su_events : Forall (setup_event_ok w s) (trace st);
  su_pty_first : precedes is_pty is_window_change (trace st)
}.

(** *** The wait group *)

Definition done_calls (s : Status) : nat :=
  match s with Finished => 1 | _ => 0 end.

Record wg_inv (st : State) : Prop := {
  wi_sum :
    (wg st + done_count (stderrCopy st) + done_count (stdoutCopy st) = 2)%Z ∨
    (wg st = 0%Z ∧ stderrCopy st = Idle ∧ stdoutCopy st = Idle);
  wi_early :
    stage (pc st) ≤ 8 → wg st = 0%Z ∧ stderrCopy st = Idle ∧ stdoutCopy st = Idle;
  wi_added : 9 ≤ stage (pc st) ≤ 14 →
    (wg st + done_count (stderrCopy st) + done_count (stdoutCopy st) = 2)%Z;
  wi_stdout_idle : stage (pc st) ≤ 10 → stdoutCopy st = Idle;
  wi_stderr_idle : stage (pc st) ≤ 9 → stderrCopy st = Idle;
  wi_done_stderr : count (is_wg_done TStderr) (trace st) = done_calls (stderrCopy st);
  wi_done_stdout : count (is_wg_done TStdout) (trace st) = done_calls (stdoutCopy st)
}.

(** *** What the relays move *)

(** The chunks the relay of goroutine [t] has copied, in order. *)
Definition copied (t : tid) (tr : list Event) : list bytes :=
  omap (fun e => match e with
                 | EvCopy t' chunk => if bool_decide (t' = t) then Some chunk else None
                 | _ => None
                 end) tr.

(** The chunks handed to the stdin pipe, in order. *)
Definition written (tr : list Event) : list bytes :=
  omap (fun e => match e with EvStdinWrite chunk _ => Some chunk | _ => None end) tr.

(** What a read of the local input contributes to the stdin pipe: the
    first [n] bytes of the buffer when there is no error and [n > 0]. *)
Definition chunk_of (r : ReadResult) : option bytes :=
  match rd_err r with
  | Some _ => None
  | None => if (0 <? rd_n r)%Z then Some (take (Z.to_nat (rd_n r)) (rd_buf r)) else None
  end.

Definition chunks_of (reads : list ReadResult) : list bytes := omap chunk_of reads.

(** The answer to the write number [k], from 0, on a local stream. *)
Definition write_answer (answers : list (option error)) (k : nat) : option error :=
  (next_write (drop k answers)).1.

(** An output relay and its stream: [done] is what it has copied, [src]
    what it has not.  Every chunk copied was written without error; a
    relay that has ended has copied all that could be read, or the write
    of the first chunk it did not copy failed. *)
Record stream_inv (stream : list bytes) (answers : list (option error))
    (status : Status) (src : list bytes) (wr : list (option error))
    (done : list bytes) : Prop := {
  si_split : done ++ src = stream;
  si_written : ∀ k, k < length done → write_answer answers k = None;
  si_answers : status ≠ Finished → wr = drop (length done) answers;
  si_end :
    status = Finished →
    src = [] ∨ ∃ e, write_answer answers (length done) = Some e
}.

Record output_inv (w : World) (s : Session) (st : State) : Prop := {
  oc_stderr :
    stream_inv (remote_stderr s) (os_Stderr_Write w)
      (stderrCopy st) (stderrSrc st) (stderrWr st) (copied TStderr (trace st));
  oc_stdout :
    stream_inv (remote_stdout s) (os_Stdout_Write w)
      (stdoutCopy st) (stdoutSrc st) (stdoutWr st) (copied TStdout (trace st));
  oc_wait :
    0 < count is_session_wait (trace st) →
    stderrCopy st = Finished ∧ stdoutCopy st = Finished
}.

(** Every write to the stdin pipe comes before any failed one. *)
Definition writes_stop_at_failure (tr : list Event) : Prop :=
  ∀ pre chunk err post, tr = pre ++ EvStdinWrite chunk err :: post → relay_result pre = None.

Record input_inv (w : World) (st : State) : Prop := {
  ii_consumed :
    ∃ consumed,
      os_Stdin_Read w = consumed ++ stdinSrc st ∧
      written (trace st) = chunks_of consumed ∧
      (stdinRelay st ≠ Finished → Forall (fun r => rd_err r = None) consumed);
  ii_stop : writes_stop_at_failure (trace st)
}.

(** *** The order of the deferred calls *)

(** The stack of deferred calls is the one the statements run so far have
    built, and a final message is never printed before the restoration
    that was deferred after it. *)
Record defer_order_inv (w : World) (st : State) : Prop := {
  do_shape :
    if stage (pc st) =? 0 then defers st = []
    else if stage (pc st) =? 1 then defers st = [DExitMsg]
    else if stage (pc st) <? 15 then ∃ state, defers st = [DRestore state; DExitMsg]
    else defers st = [] ∨ defers st = [DExitMsg] ∨
         ∃ state, defers st = [DRestore state; DExitMsg];
  do_order :
    (∃ state, term_MakeRaw w = Ok state) →
    precedes is_restore is_exit_msg (trace st)
}.

(** *** The watcher inside the session *)

(** The loop variables of a watcher that is in its loop. *)
Definition last_known (p : WatcherPc) : option (Z * Z) :=
  match p with
  | WLoop termWidth termHeight => Some (termWidth, termHeight)
  | _ => None
  end.

(** The loop of the watcher over [processed], started from the size read
    at line 120. *)
Definition watcher_run (w : World) (processed : list Notification)
  : list Event * option (Z * Z) :=
  let '(termWidth, termHeight, _) := watcher_GetSize w in
  sigwinch_loop termWidth termHeight processed.

Record watcher_inv (w : World) (st : State) : Prop := {
  wa_before :
    watcher st = WIdle ∨ watcher st = WStart →
    resize_requests (trace st) = [] ∧ signals st = sigwinchCh w;
  wa_loop :
    watcher st ≠ WIdle → watcher st ≠ WStart →
    ∃ processed,
      sigwinchCh w = processed ++ signals st ∧
      resize_requests (trace st) = resize_requests (watcher_run w processed).1 ∧
      (watcher_run w processed).2 = last_known (watcher st)
}.

(** *** The events of [main] itself *)

(** What [main], [loadConfig] and the selection do outside of
    [connectToServer]: they open and close the inventory and print. *)
Definition main_event (e : Event) : bool :=
  match e with
  | EvOpen _ | EvFileClose | EvPrint _ => true
  | _ => false
  end.

(** Raw mode is asked for once, by the second statement of the session. *)
Definition raw_inv (st : State) : Prop :=
  count is_make_raw (trace st) = if stage (pc st) <=? 1 then 0 else 1.

(** * sshTools: the shell client [shell_ssh/ssh.sh]

    The script is embedded statement by statement.  The programs it
    calls are answered by the oracle record [Tools]; what it prints,
    reads and runs is logged as a [ShEvent]. *)

(** The double quote. *)
Definition dq : string := String (ascii_of_nat 34) EmptyString.

(** Where [jq] takes its input from: a file given as argument, or the
    output of [echo "$SERVER"] on its standard input. *)
Inductive JqInput :=
| FromFile (path : string)
| FromEcho (text : string).

Record Tools := {
  (** the standard output of [jq -r filter] on that input *)
  jq_r : string → JqInput → string;
  (** what [read] stores in [CHOICE] *)
  read_CHOICE : string;
  (** the standard output of [eval echo ~user] *)
  eval_echo_tilde : string → string;
  (** the exit status of the command that the unquoted expansion of
      [$SSH_CMD] runs, once the shell has split it into words *)
  run_SSH_CMD : string → Z
}.

Inductive ShEvent :=
| ShEcho (line : string)                       (* [echo line] *)
| ShJq (filter : string) (input : JqInput)     (* a call of [jq -r filter] *)
| ShOut (text : string)                        (* output of [jq] left on the terminal *)
| ShRead (prompt : string)                     (* [read -p prompt CHOICE] *)
| ShEval (user : string)                       (* [eval echo ~user] *)
| ShRun (line : string).                       (* [$SSH_CMD], line 62 *)

(** How the script ends: by [exit], or by running off its last
    statement, line 68. *)
Inductive ShOutcome :=
| Exit (status : Z)
| Completed.

(** [$(...)]: the standard output of a command without its trailing
    newlines. *)
Fixpoint command_substitution (out : string) : string :=
  match out with
  | EmptyString => EmptyString
  | String c out' =>
      match command_substitution out' with
      | EmptyString => if Ascii.eqb c "010" then EmptyString else String c EmptyString
      | rest => String c rest
      end
  end.

(** Line 4. *)
Definition CONFIG_FILE : string := "/home/config.json".

(** The filter of line 12. *)
Definition list_filter : string :=
  ".servers[] | " +:+ dq +:+ "\(.alias) (\(.address))" +:+ dq.

(** The filter of line 17. *)
Definition choice_filter (CHOICE : string) : string :=
  ".servers[] | select(.alias == " +:+ dq +:+ CHOICE +:+ dq +:+ " or .address == "
  +:+ dq +:+ CHOICE +:+ dq +:+ ")".

(** The filter of line 27. *)
Definition alias_filter (ALIAS_FLAG : string) : string :=
  ".servers[] | select(.alias == " +:+ dq +:+ ALIAS_FLAG +:+ dq +:+ ")".

(** [select_server], lines 10-23: the events and the value of [SERVER],
    [None] when the function exits the script with status 1. *)
Definition select_server (sh : Tools) : list ShEvent * option string :=
  let CHOICE := read_CHOICE sh in
  let SERVER :=
    command_substitution (jq_r sh (choice_filter CHOICE) (FromFile CONFIG_FILE)) in
  let tr :=
    [ShEcho "Please select a server to connect to:";
     ShJq list_filter (FromFile CONFIG_FILE);
     ShOut (jq_r sh list_filter (FromFile CONFIG_FILE));
     ShRead "Enter the alias or address of the server: ";
     ShJq (choice_filter CHOICE) (FromFile CONFIG_FILE)] in
  if bool_decide (SERVER = "")
  then (tr ++ [ShEcho "Invalid choice, exiting."], None)
  else (tr, Some SERVER).

(** Lines 26-34: the selection by the first argument, or interactively. *)
Definition selection (sh : Tools) (ALIAS_FLAG : string) : list ShEvent * option string :=
  if bool_decide (ALIAS_FLAG ≠ "") then
    let SERVER :=
      command_substitution (jq_r sh (alias_filter ALIAS_FLAG) (FromFile CONFIG_FILE)) in
    if bool_decide (SERVER = "")
    then ([ShJq (alias_filter ALIAS_FLAG) (FromFile CONFIG_FILE);
           ShEcho ("No server found with alias " +:+ dq +:+ ALIAS_FLAG +:+ dq
                   +:+ ", exiting.")],
          None)
    else ([ShJq (alias_filter ALIAS_FLAG) (FromFile CONFIG_FILE)], Some SERVER)
  else select_server sh.

(** [$(echo "$SERVER" | jq -r filter)], lines 37-43. *)
Definition field (sh : Tools) (filter SERVER : string) : string :=
  command_substitution (jq_r sh filter (FromEcho SERVER)).

(** Lines 46-58: the command line for the entry [SERVER], with the home
    directory lookups made on the way. *)
Definition SSH_CMD (sh : Tools) (SERVER : string) : list ShEvent * string :=
  let ADDRESS := field sh ".address" SERVER in
  let PORT := field sh ".port" SERVER in
  let USER := field sh ".user" SERVER in
  let USE_KEY := field sh ".use_key" SERVER in
  let PRIVATE_KEY := field sh ".private_key" SERVER in
  let PASSWORD := field sh ".password" SERVER in
  let SSH_CMD := "ssh " +:+ USER +:+ "@" +:+ ADDRESS +:+ " -p " +:+ PORT in
  let '(tr, SSH_CMD) :=
    if bool_decide (USE_KEY = "true") then
      let HOME_DIR := command_substitution (eval_echo_tilde sh USER) in
      let KEY_PATH := HOME_DIR +:+ "/" +:+ PRIVATE_KEY in
      ([ShEval USER], SSH_CMD +:+ " -i " +:+ KEY_PATH)
    else ([], SSH_CMD) in
  let SSH_CMD :=
    if bool_decide (PASSWORD ≠ "")
    then "sshpass -p " +:+ PASSWORD +:+ " " +:+ SSH_CMD
    else SSH_CMD in
  (tr, SSH_CMD).

(** The seven extractions of lines 37-43, in their order. *)
Definition extractions (SERVER : string) : list ShEvent :=
  (fun filter => ShJq filter (FromEcho SERVER))
  <$> [".alias"; ".address"; ".port"; ".user"; ".use_key"; ".private_key"; ".password"].

(** The whole script, with first argument [ALIAS_FLAG] (empty when the
    script is called without argument). *)
Definition ssh_sh (sh : Tools) (ALIAS_FLAG : string) : list ShEvent * ShOutcome :=
  match selection sh ALIAS_FLAG with
  | (tr, None) => (tr, Exit 1)
  | (tr, Some SERVER) =>
      let ALIAS := field sh ".alias" SERVER in
      let ADDRESS := field sh ".address" SERVER in
      let PORT := field sh ".port" SERVER in
      let '(tr_cmd, cmd) := SSH_CMD sh SERVER in
      let tr :=
        tr ++ extractions SERVER ++ tr_cmd ++
        [ShEcho ("Connecting to " +:+ ALIAS +:+ " (" +:+ ADDRESS +:+ ":" +:+ PORT +:+ ")...");
         ShRun cmd] in
      if bool_decide (run_SSH_CMD sh cmd ≠ 0%Z)
      then (tr ++ [ShEcho ("Failed to connect to server " +:+ ALIAS +:+ ", exiting.")],
            Exit 1)
      else (tr, Completed)
  end.

(** ** Bookkeeping for the script *)

Definition is_run (e : ShEvent) : bool :=
  match e with ShRun _ => true | _ => false end.

Definition is_read (e : ShEvent) : bool :=
  match e with ShRead _ | ShOut _ => true | _ => false end.

Definition is_inventory_query (e : ShEvent) : bool :=
  match e with ShJq _ (FromFile _) => true | _ => false end.

Fixpoint sh_count (f : ShEvent → bool) (tr : list ShEvent) : nat :=
  match tr with
  | [] => 0
  | e :: tr' => (if f e then 1 else 0) + sh_count f tr'
  end.

(** ** A sample inventory for the script *)

Definition db1_json : string :=
  "{" +:+ dq +:+ "alias" +:+ dq +:+ ":" +:+ dq +:+ "db1" +:+ dq +:+ "}" +:+ nl.

(** A machine whose [jq] finds [db1] by that alias and by nothing else,
    and on which [ssh] fails. *)
Definition sample_shell : Tools :=
  {| jq_r := fun filter input =>
       match input with
       | FromFile _ => if String.eqb filter (alias_filter "db1") then db1_json else ""
       | FromEcho _ =>
           if String.eqb filter ".alias" then "db1" +:+ nl
           else if String.eqb filter ".address" then "10.0.0.5" +:+ nl
           else if String.eqb filter ".port" then "22" +:+ nl
           else if String.eqb filter ".user" then "ops" +:+ nl
           else if String.eqb filter ".use_key" then "true" +:+ nl
           else if String.eqb filter ".private_key" then ".ssh/id_ed25519" +:+ nl
           else if String.eqb filter ".password" then "secret" +:+ nl
           else "null" +:+ nl
       end;
     read_CHOICE := "db9";
     eval_echo_tilde := fun user => "/home/" +:+ user +:+ nl;
     run_SSH_CMD := fun _ => 255%Z |}.
(** * Results *)

(** ** The key path (C5) *)

Lemma Replace_go_zero fuel s old new : Replace_go fuel s old new 0 = s.
Proof. by destruct fuel. Qed.

Lemma append_empty (s : string) : "" +:+ s = s.
Proof. reflexivity. Qed.

Lemma append_String c (s1 s2 : string) : String c s1 +:+ s2 = String c (s1 +:+ s2).
Proof. reflexivity. Qed.

Lemma prefix_empty (s : string) : String.prefix "" s = true.
Proof. by destruct s. Qed.

Lemma prefix_marker c (s : string) :
  String.prefix "~" (String c s) = bool_decide ("~"%char = c).
Proof.
  cbn [String.prefix]. rewrite prefix_empty.
  destruct (ascii_dec "~" c);
    [by rewrite bool_decide_eq_true_2|by rewrite bool_decide_eq_false_2].
Qed.

Lemma Replace_go_S fuel s old new n :
  Replace_go (S fuel) s old new n =
  if (n =? 0)%Z then s
  else if String.prefix old s
       then new +:+ Replace_go fuel (string_drop (String.length old) s) old new (n - 1)
       else match s with
            | EmptyString => EmptyString
            | String c s' => String c (Replace_go fuel s' old new n)
            end.
Proof. reflexivity. Qed.

Lemma Replace_go_first fuel pre post new :
  no_marker pre → (String.length pre < fuel)%nat →
  Replace_go fuel (pre +:+ "~" +:+ post) "~" new 1 = pre +:+ new +:+ post.
Proof.
  revert fuel. induction pre as [|c pre IH]; intros fuel Hpre Hlen;
    (destruct fuel as [|fuel]; [simpl in Hlen; lia|]); rewrite Replace_go_S;
    change (1 =? 0)%Z with false; cbv iota.
  - rewrite !append_empty, append_String, append_empty, prefix_marker.
    rewrite bool_decide_eq_true_2 by done.
    change (1 - 1)%Z with 0%Z. by rewrite Replace_go_zero.
  - destruct Hpre as [Hc Hpre]. simpl in Hlen.
    rewrite !append_String, prefix_marker.
    rewrite bool_decide_eq_false_2 by congruence.
    f_equal. apply IH; [done|lia].
Qed.

Lemma Replace_go_none fuel s new n :
  no_marker s → Replace_go fuel s "~" new n = s.
Proof.
  revert s. induction fuel as [|fuel IH]; intros s Hs; [done|].
  rewrite Replace_go_S. destruct (n =? 0)%Z; [done|].
  destruct s as [|c s]; [done|]. destruct Hs as [Hc Hs].
  rewrite prefix_marker, bool_decide_eq_false_2 by congruence.
  f_equal. by apply IH.
Qed.

Lemma string_length_app (s1 s2 : string) :
  String.length (s1 +:+ s2) = (String.length s1 + String.length s2)%nat.
Proof. induction s1 as [|c s1 IH]; simpl; [done|by rewrite IH]. Qed.

(** The first marker of the path is replaced by the home directory of the
    user running the program, wherever it stands; what precedes and what
    follows it is kept. *)
Lemma keyPath_first_marker server homeDir pre post :
  no_marker pre → PrivateKey server = pre +:+ "~" +:+ post →
  keyPath server homeDir = pre +:+ homeDir +:+ post.
Proof.
  intros Hpre Heq. unfold keyPath, strings_Replace. rewrite Heq.
  apply Replace_go_first; [done|]. rewrite string_length_app. lia.
Qed.

(** A leading marker, the case the tool is written for. *)
Lemma keyPath_leading_marker server homeDir rest :
  PrivateKey server = "~" +:+ rest → keyPath server homeDir = homeDir +:+ rest.
Proof. intros Heq. by apply (keyPath_first_marker server homeDir "" rest). Qed.

Lemma keyPath_without_marker server homeDir :
  no_marker (PrivateKey server) → keyPath server homeDir = PrivateKey server.
Proof. intros. by apply Replace_go_none. Qed.

(** The home directory is the one [user.Current()] reports, whatever the
    [User] of the target is. *)
Lemma getHomeDir_current_user w homeDir :
  user_Current w = Ok homeDir → getHomeDir w = Ok homeDir.
Proof. unfold getHomeDir. by intros ->. Qed.

(** C5, at the input where the code departs from it: the marker of the key
    path /keys/id~rsa is not leading, and yet the home directory is
    spliced in at its place. *)
Theorem keyPath_inner_marker_replaced :
  keyPath backup_key "/home/me" = "/keys/id/home/mersa" ∧
  (authMethods sample_world backup_key).1 = [EvReadFile "/keys/id/home/mersa"].
Proof. split; reflexivity. Qed.

(** ** The resize watcher (C6) *)

Lemma sigwinch_iter_same termWidth termHeight err :
  sigwinch_iter termWidth termHeight (Sigwinch termWidth termHeight err)
  = ([EvGetSize], Some (termWidth, termHeight)).
Proof. unfold sigwinch_iter. by rewrite !bool_decide_eq_true_2. Qed.

Lemma sigwinch_iter_changed termWidth termHeight w h err :
  (w, h) ≠ (termWidth, termHeight) →
  resize_requests (sigwinch_iter termWidth termHeight (Sigwinch w h err)).1 = [(h, w)] ∧
  (sigwinch_iter termWidth termHeight (Sigwinch w h err)).2
  = Some (match err with Some _ => (termWidth, termHeight) | None => (w, h) end).
Proof.
  intros Hne. unfold sigwinch_iter.
  destruct (bool_decide (h = termHeight)) eqn:Hh, (bool_decide (w = termWidth)) eqn:Hw;
    simpl; try (by destruct err).
  apply bool_decide_eq_true in Hh, Hw. congruence.
Qed.

(** Over a whole sequence of notifications whose sizes are read
    successfully, the requests sent are exactly the changes of size. *)
Lemma sigwinch_loop_requests sizes : ∀ termWidth termHeight,
  resize_requests
    (sigwinch_loop termWidth termHeight (map (fun '(w, h) => Sigwinch w h None) sizes)).1
  = size_changes termWidth termHeight sizes.
Proof.
  induction sizes as [|[w h] sizes IH]; intros tw th; [done|].
  cbn [map sigwinch_loop size_changes]. unfold sigwinch_iter.
  destruct (bool_decide (h = th) && bool_decide (w = tw)).
  - specialize (IH tw th). destruct (sigwinch_loop tw th _) as [evs' next]. by simpl in *.
  - specialize (IH w h). destruct (sigwinch_loop w h _) as [evs' next]. simpl in *.
    by rewrite IH.
Qed.

(** The watcher goroutine handles a notification by one round of the
    loop: the events of the round are appended to the trace of the
    session and its loop variables become the last-known size. *)
Lemma step_winch_round w s st termWidth termHeight sig rest :
  watcher st = WLoop termWidth termHeight → signals st = sig :: rest →
  ∃ st', step w s TWinch st = Some st' ∧
         trace st' = trace st ++ (sigwinch_iter termWidth termHeight sig).1 ∧
         signals st' = rest ∧
         watcher st' = match (sigwinch_iter termWidth termHeight sig).2 with
                       | Some (w', h') => WLoop w' h'
                       | None => WReturned
                       end.
Proof.
  intros Hw Hsigs. simpl. unfold step_winch. rewrite Hw, Hsigs.
  destruct (sigwinch_iter termWidth termHeight sig) as [evs next]. by eexists.
Qed.

(** C6, where the code departs from it.  The terminal was 80x24 and
    [term.GetSize] now fails, answering 0x0 with its error.  The size
    differs from the last-known one, so the request is sent; the error
    that is tested after [WindowChange] is the one of [term.GetSize],
    so the last-known size is not updated, and the duplicate
    notification sends the same request a second time.  This is so for
    the loop itself, and for the watcher goroutine of a session. *)
Theorem failed_size_read_not_deduplicated :
  resize_requests
    (sigwinch_loop 80 24 [Sigwinch 0 0 (Some "inappropriate ioctl for device");
                          Sigwinch 0 0 (Some "inappropriate ioctl for device")]).1
  = [(0%Z, 0%Z); (0%Z, 0%Z)] ∧
  resize_requests
    (trace (run lost_tty_world quiet_session watcher_schedule
              (init lost_tty_world quiet_session)))
  = [(0%Z, 0%Z); (0%Z, 0%Z)].
Proof. split; vm_compute; reflexivity. Qed.

(** ** The transport connector (C3, C4) *)

Lemma authMethods_events w server e :
  e ∈ (authMethods w server).1 → ∃ path, e = EvReadFile path.
Proof.
  unfold authMethods.
  repeat case_match; simpl; elem_of_trace.
Qed.

(** C4: when the target asks for key authentication and its key file
    cannot be read or cannot be parsed, [connectToServer] returns the
    key error and no dial has been attempted. *)
Theorem key_failure_no_dial w server sched homeDir e :
  UseKey server = true →
  user_Current w = Ok homeDir →
  key_unusable w server homeDir e →
  (∃ msg, (connectToServer w server sched).2 = Returned (Some msg) ∧
      (msg = "failed to read private key " +:+ keyPath server homeDir +:+ ": " +:+ e ∨
       msg = "failed to parse private key " +:+ keyPath server homeDir +:+ ": " +:+ e)) ∧
  ∀ network address config, EvDial network address config ∉ (connectToServer w server sched).1.
Proof.
  intros Hkey Hhome Hbad.
  unfold connectToServer, authMethods, getHomeDir. rewrite Hkey, Hhome.
  destruct Hbad as [Hread|(key & Hread & Hparse)]; rewrite Hread; [|rewrite Hparse]; simpl.
  - split; [eauto|]. intros ???. elem_of_trace.
  - split; [eauto|]. intros ???. elem_of_trace.
Qed.

Lemma key_failure_no_dial_witness :
  (∃ msg, (connectToServer no_key_world db1 full_schedule).2 = Returned (Some msg) ∧
      (msg = "failed to read private key /home/me/.ssh/id_ed25519: no such file or directory" ∨
       msg = "failed to parse private key /home/me/.ssh/id_ed25519: no such file or directory")) ∧
  ∀ network address config,
    EvDial network address config ∉ (connectToServer no_key_world db1 full_schedule).1.
Proof.
  apply (key_failure_no_dial no_key_world db1 full_schedule "/home/me"
           "no such file or directory"); [reflexivity|reflexivity|].
  left. reflexivity.
Defined.

(** Without a home directory the key is not even looked for, and there is
    no dial either. *)
Lemma home_failure_no_dial w server sched e :
  UseKey server = true → user_Current w = Err e →
  connectToServer w server sched
  = ([], Returned (Some ("failed to get home directory: " +:+ e))).
Proof.
  intros Hkey Hhome. unfold connectToServer, authMethods, getHomeDir.
  by rewrite Hkey, Hhome.
Qed.

(** ** Server selection and the exit status (C10, C1) *)

Lemma main_unfold_selected w args sched config server :
  (loadConfig w (configFile args)).2 = Ok config →
  (selectServer w args config).2 = Some server →
  (main w args sched).2 =
  match (connectToServer w server sched).2 with
  | Returned _ => Returned tt
  | Panicked msg => Panicked msg
  | Hung => Hung
  end.
Proof.
  intros Hload Hsel. unfold main.
  destruct (loadConfig w (configFile args)) as [tr r]; simpl in Hload; subst r.
  destruct (selectServer w args config) as [tr' sel]; simpl in Hsel; subst sel.
  destruct (connectToServer w server sched) as [tr'' [[e|]|msg|]]; done.
Qed.

Lemma connectToServer_no_panic w server sched msg :
  (connectToServer w server sched).2 ≠ Panicked msg.
Proof.
  unfold connectToServer.
  destruct (authMethods w server) as [tr [auth|e]]; [|done].
  destruct (ssh_Dial w _ _ _) as [client|e]; [|done].
  destruct (NewSession client) as [session|e]; [|done].
  destruct (interactiveSession w session sched) as [tr' [err|]]; done.
Qed.

(** C10: with an empty server list no selector matches, the fallback
    reads the first element of the empty list and [main] panics; with a
    non-empty list a server is always selected, the first one when no
    selector matches, and [main] does not panic. *)
Theorem empty_inventory_panics w args sched config :
  (loadConfig w (configFile args)).2 = Ok config →
  (Servers config = [] →
     select_by_flags w args config = None ∧
     (select_interactive w config).2 = None ∧
     (main w args sched).2 = Panicked "runtime error: index out of range [0] with length 0") ∧
  (Servers config ≠ [] →
     (∃ server, (selectServer w args config).2 = Some server) ∧
     (select_by_flags w args config = None → (select_interactive w config).2 = None →
        (selectServer w args config).2 = head (Servers config)) ∧
     ∀ msg, (main w args sched).2 ≠ Panicked msg).
Proof.
  intros Hload. split.
  - intros Hnil.
    assert (Hflags : select_by_flags w args config = None).
    { unfold select_by_flags. rewrite Hnil. by repeat case_match. }
    assert (Hint : (select_interactive w config).2 = None).
    { unfold select_interactive. by rewrite Hnil. }
    split_and!; [done..|].
    unfold main. destruct (loadConfig w (configFile args)) as [tr r]; simpl in Hload; subst r.
    unfold selectServer. rewrite Hflags.
    destruct (select_interactive w config) as [tr' sel]; simpl in Hint; subst sel.
    by rewrite Hnil.
  - intros Hne. destruct (Servers config) as [|first rest] eqn:Hservers; [done|].
    assert (Hsel : ∃ server, (selectServer w args config).2 = Some server).
    { unfold selectServer. destruct (select_by_flags w args config) as [server|]; [by eexists|].
      destruct (select_interactive w config) as [tr' [server|]]; [by eexists|].
      rewrite Hservers. by eexists. }
    split_and!; [done| |].
    + intros Hflags Hint. unfold selectServer. rewrite Hflags.
      destruct (select_interactive w config) as [tr' sel]; simpl in Hint; subst sel.
      by rewrite Hservers.
    + intros msg. destruct Hsel as [server Hsel].
      rewrite (main_unfold_selected _ _ _ _ _ Hload Hsel).
      pose proof (connectToServer_no_panic w server sched) as Hnp.
      destruct (connectToServer w server sched).2; naive_solver.
Qed.

Lemma empty_inventory_panics_witness :
  (main empty_inventory_world no_flags full_schedule).2
  = Panicked "runtime error: index out of range [0] with length 0".
Proof.
  apply (empty_inventory_panics empty_inventory_world no_flags full_schedule
           {| Servers := [] |}); reflexivity.
Defined.

(** The claim of C1 fails where the inventory file is missing: a stage
    has failed and the exit status is 0. *)
Lemma failed_run_exits_zero :
  ¬ (stage_failed no_config_world no_flags full_schedule →
     ∃ code, exit_status (main no_config_world no_flags full_schedule).2 = Some code
             ∧ code ≠ 0%Z).
Proof.
  intros Hclaim. destruct Hclaim as (code & Hcode & Hne).
  - left. by eexists.
  - vm_compute in Hcode. congruence.
Qed.

(** C1, amended: whenever [main] returns the exit status is 0, after an
    orderly session as well as after a failed stage: when the inventory
    cannot be loaded, and when [connectToServer] returns, with or
    without an error.  A failed stage is told by a printed line only. *)
Theorem exit_status_zero_on_every_return w args sched :
  (∀ e, (loadConfig w (configFile args)).2 = Err e →
     exit_status (main w args sched).2 = Some 0%Z ∧
     EvPrint ("Error loading config: " +:+ e +:+ nl) ∈ (main w args sched).1) ∧
  (∀ config server err,
     (loadConfig w (configFile args)).2 = Ok config →
     (selectServer w args config).2 = Some server →
     (connectToServer w server sched).2 = Returned err →
     exit_status (main w args sched).2 = Some 0%Z ∧
     ∀ e, err = Some e → EvPrint ("Error: " +:+ e +:+ nl) ∈ (main w args sched).1).
Proof.
  split_and!.
  - intros e Hload. unfold main.
    destruct (loadConfig w (configFile args)) as [tr r]; simpl in Hload; subst r. simpl.
    split; [done|]. elem_of_trace.
  - intros config server err Hload Hsel Hconn. unfold main.
    destruct (loadConfig w (configFile args)) as [tr r]; simpl in Hload; subst r.
    destruct (selectServer w args config) as [tr' sel]; simpl in Hsel; subst sel.
    destruct (connectToServer w server sched) as [tr'' o]; simpl in Hconn; subst o.
    destruct err as [e|]; simpl; (split; [done|]); [intros e' [= <-]|by intros e' [=]].
    elem_of_trace.
Qed.

Lemma exit_status_zero_on_every_return_witness :
  exit_status (main no_config_world no_flags full_schedule).2 = Some 0%Z ∧
  exit_status (main sample_world no_flags full_schedule).2 = Some 0%Z.
Proof.
  split.
  - apply (proj1 (exit_status_zero_on_every_return no_config_world no_flags full_schedule)
             "open config.json: no such file or directory").
    reflexivity.
  - apply (proj2 (exit_status_zero_on_every_return sample_world no_flags full_schedule)
             {| Servers := [db1; bare] |} db1 None); reflexivity.
Defined.

(** ** Traces *)

Lemma count_app f tr tr' : count f (tr ++ tr') = count f tr + count f tr'.
Proof. induction tr as [|e tr IH]; simpl; [done|]. rewrite IH. lia. Qed.

Lemma count_zero f tr : count f tr = 0 ↔ ∀ e, e ∈ tr → f e = false.
Proof.
  induction tr as [|e tr IH]; simpl.
  - split; [|done]. intros _ e He. by apply elem_of_nil in He.
  - split.
    + intros Hc e' He'. apply elem_of_cons in He' as [->|He'].
      * destruct (f e); [lia|done].
      * apply IH; [|done]. destruct (f e); lia.
    + intros Hall. rewrite (Hall e) by apply list_elem_of_here. simpl.
      apply IH. intros e' He'. apply Hall. by apply list_elem_of_further.
Qed.

(** A list that ends where another one goes on. *)
Lemma app_eq_app_cons (tr evs pre post : list Event) x :
  tr ++ evs = pre ++ x :: post →
  (∃ post', tr = pre ++ x :: post') ∨ (∃ pre', pre = tr ++ pre' ∧ evs = pre' ++ x :: post).
Proof.
  revert pre. induction tr as [|e tr IH]; intros pre Heq.
  - right. exists pre. by simpl in *.
  - destruct pre as [|e' pre]; simpl in Heq; injection Heq as -> Heq.
    + left. by exists tr.
    + destruct (IH _ Heq) as [[post' ->]|(pre' & -> & ->)].
      * left. by exists post'.
      * right. by exists pre'.
Qed.

Lemma precedes_nil P Q : precedes P Q [].
Proof. intros pre e post Heq. by destruct pre. Qed.

Lemma precedes_app P Q tr evs :
  precedes P Q tr → count Q evs = 0 ∨ 0 < count P tr → precedes P Q (tr ++ evs).
Proof.
  intros Hprec Hevs pre e post Heq HQ.
  apply app_eq_app_cons in Heq as [[post' ->]|(pre' & -> & ->)].
  - by eapply Hprec.
  - rewrite count_app. destruct Hevs as [Hnone|Hsome]; [|lia].
    rewrite count_zero in Hnone. rewrite Hnone in HQ; [done|].
    rewrite elem_of_app, elem_of_cons. auto.
Qed.

Lemma relay_result_app tr evs :
  relay_result (tr ++ evs)
  = match relay_result tr with
    | Some e => Some e
    | None => relay_result evs
    end.
Proof.
  unfold relay_result. rewrite omap_app.
  by destruct (omap write_error tr).
Qed.

Lemma recorded_app tr evs :
  recorded (tr ++ evs)
  = match recorded tr with
    | Some e => Some e
    | None => recorded evs
    end.
Proof.
  unfold recorded. rewrite omap_app.
  by destruct (omap set_exit_msg tr).
Qed.

Lemma returned_done st err : returned st = Some err → pc st = PcDone err.
Proof. unfold returned. destruct (pc st); naive_solver. Qed.

(** ** Runs of the session *)

Section Session.

Context (w : World) (s : Session).

Lemma run_snoc sched t st :
  run w s (sched ++ [t]) st = sched_step w s (run w s sched st) t.
Proof. unfold run. by rewrite foldl_app. Qed.

(** A property of the initial state that every step keeps holds after
    every schedule. *)
Lemma run_ind (P : State → Prop) st0 :
  P st0 →
  (∀ st t st', P st → step w s t st = Some st' → P st') →
  ∀ sched, P (run w s sched st0).
Proof.
  intros H0 Hstep sched. induction sched as [|t sched IH] using rev_ind; [done|].
  rewrite run_snoc. unfold sched_step.
  destruct (step w s t (run w s sched st0)) eqn:Heq; simpl; eauto.
Qed.

(** *** The deferred calls *)

Lemma defers_inv_init : defers_inv w s (init w s).
Proof.
  split; simpl; try done; try lia; try apply precedes_nil. by intros err [?|?].
Qed.

Lemma defers_inv_step st t st' :
  defers_inv w s st → step w s t st = Some st' → defers_inv w s st'.
Proof.
  intros Hinv Hstep.
  step_cases Hstep; destruct Hinv as [Hr Hm Hd Hp Ht Hrp Hrf Hx];
    split; simpl in *; rewrite ?count_app, ?Forall_app; simpl.
  all: repeat match goal with
         | H : pc _ = _ |- _ => rewrite H in *; simpl in *
         | H : defers _ = _ |- _ => rewrite H in *; simpl in *
         | H : term_MakeRaw _ = _ |- _ => rewrite H in *; simpl in *
         end.
  all: rewrite ?Forall_cons in *.
  all: try lia; try done.
  all: try (apply precedes_app; [assumption|]; simpl;
            first [by left | right; apply Hrp; lia]).
  all: try solve [repeat (split || constructor); simpl; try done; congruence].
  all: try solve [intros err' [Heq|Heq]; simplify_eq;
                  first [ solve [apply Hx; auto]
                        | solve [eauto using exit_path]
                        | match goal with
                          | H : term_GetSize _ = _ |- _ =>
                              apply terminal_size_error; by rewrite H
                          end ]].
  all: try solve [intros; apply Hrp; lia | intros; lia].
  all: by destruct Hp as [Hstate Hp].
Qed.

(** *** The final message *)

Lemma exit_msgs_ok_other tr evs :
  exit_msgs_ok w tr → count is_exit_msg evs = 0 → exit_msgs_ok w (tr ++ evs).
Proof.
  intros Hok Hnone pre m post Heq.
  apply app_eq_app_cons in Heq as [[post' ->]|(pre' & -> & ->)].
  - by eapply Hok.
  - rewrite count_zero in Hnone.
    specialize (Hnone (EvExitMsg m)). rewrite elem_of_app, elem_of_cons in Hnone.
    by discriminate Hnone; auto.
Qed.

Lemma exit_msgs_ok_msg tr :
  exit_msgs_ok w tr →
  exit_msgs_ok w (tr ++ [EvExitMsg (final_message w (recorded tr))]).
Proof.
  intros Hok pre m post Heq.
  apply app_eq_app_cons in Heq as [[post' ->]|(pre' & -> & Heq)].
  - by eapply Hok.
  - destruct pre' as [|e [|e' pre']]; simpl in Heq; simplify_eq. by rewrite app_nil_r.
Qed.

Lemma exit_message_final st r :
  exitMsg st = default "" r → exit_message w st = final_message w r.
Proof.
  unfold exit_message, final_message. intros ->.
  by destruct r as [e|].
Qed.

Lemma exit_msg_inv_init : exit_msg_inv w (init w s).
Proof.
  split; simpl; try done. intros pre m post Heq. by destruct pre.
Qed.

(** A step that leaves the input goroutine where it stands, or starts
    it, and prints no final message but the one due. *)
Lemma exit_msg_inv_frame st st' evs :
  exit_msg_inv w st →
  trace st' = trace st ++ evs → relay_result evs = None → recorded evs = None →
  count is_exit_msg evs = 0 ∨ evs = [EvExitMsg (exit_message w st)] →
  exitMsg st' = exitMsg st → relayPc st' = relayPc st →
  stage (pc st) ≤ stage (pc st') →
  stdinRelay st' = stdinRelay st ∨
  (stdinRelay st = Idle ∧ stdinRelay st' = Running ∧ 11 < stage (pc st')) →
  exit_msg_inv w st'.
Proof.
  intros [Hf Hi Ha Hr Hp Hn Hrec Hm] Htr Hres Hnew Hmsg Hfield Hpc Hstage Hrelay.
  assert (Hsame : recorded (trace st') = recorded (trace st)).
  { rewrite Htr, recorded_app, Hnew. by destruct (recorded (trace st)). }
  assert (Hsame' : relay_result (trace st') = relay_result (trace st)).
  { rewrite Htr, relay_result_app, Hres. by destruct (relay_result (trace st)). }
  split; rewrite ?Hsame, ?Hsame', ?Hfield, ?Hpc; try done.
  - intros Hearly. destruct Hrelay as [->|(_ & _ & Hlate)]; [apply Hi|]; lia.
  - destruct Hrelay as [->|(_ & -> & _)]; [done|by intros [=]].
  - destruct Hrelay as [->|(Hidle & _ & _)]; [done|].
    intros _ _. apply Hr; [by rewrite Hidle|by apply Ha].
  - intros e. unfold pending_error in *. rewrite Hpc.
    destruct Hrelay as [->|(Hidle & -> & _)]; [apply Hp|].
    by rewrite (Ha Hidle).
  - destruct Hrelay as [->|(Hidle & _ & _)]; [done|].
    intros _. apply Hn. by rewrite Hidle.
  - rewrite Htr. destruct Hmsg as [Hnone| ->].
    + by apply exit_msgs_ok_other.
    + rewrite (exit_message_final _ _ Hf). by apply exit_msgs_ok_msg.
Qed.

Lemma exit_msg_inv_step st t st' :
  exit_msg_inv w st → step w s t st = Some st' → exit_msg_inv w st'.
Proof.
  intros Hinv Hstep.
  destruct (decide (t = TStdin)) as [->|Hother]; last first.
  { pose proof (em_idle _ _ Hinv) as Hidle.
    step_cases Hstep; try done;
      (eapply (exit_msg_inv_frame st);
       [exact Hinv
       |simpl; first [reflexivity | symmetry; apply app_nil_r]
       |reflexivity|reflexivity
       |first [by left | by right]
       |reflexivity|reflexivity| | ]); simpl;
      repeat match goal with
        | H : pc _ = _ |- _ => rewrite H in *; simpl in *
        end;
      first [lia | by left
            | right; split_and!; [apply Hidle; vm_compute; lia|done|lia] ]. }
  destruct Hinv as [Hf Hi Ha Hr Hp Hn Hrec Hm].
  simpl in Hstep. unfold step_stdin in Hstep.
  destruct (stdinRelay st) eqn:Hrelay; try done.
  assert (Hlate : ¬ stage (pc st) ≤ 11) by (intros Hearly; by specialize (Hi Hearly)).
  unfold pending_error in Hp. rewrite Hrelay in Hp.
  destruct (relayPc st) as [|e|e] eqn:Hpc.
  - destruct (stdinSrc st) as [|r rest] eqn:Hsrc; [done|]. simplify_eq.
    specialize (Hr ltac:(done) eq_refl). specialize (Hn ltac:(done)).
    rewrite Hn in Hf. simpl in Hf.
    unfold stdin_iter, next_write.
    destruct (rd_err r) as [e|]; [|destruct (0 <? rd_n r)%Z;
      [destruct (writeRes st) as [|[e|] wr]|]];
      split; unfold pending_error; simpl;
      rewrite ?Hpc, ?relay_result_app, ?recorded_app, ?Hr, ?Hn; simpl; try done;
      try (by intros e' [= <-]);
      try (by apply exit_msgs_ok_other).
  - simplify_eq. destruct (Hp e eq_refl) as [Hres Hnone].
    rewrite Hnone in Hf. simpl in Hf.
    split; unfold pending_error; simpl;
      rewrite ?Hrelay, ?relay_result_app, ?recorded_app, ?Hres, ?Hnone; simpl; try done;
      try (by intros e' [= <-]);
      try (by apply exit_msgs_ok_other).
  - simplify_eq. destruct (Hp e eq_refl) as [Hres Hnone].
    rewrite Hnone in Hf. simpl in Hf.
    split; unfold pending_error; simpl;
      rewrite ?Hrelay, ?relay_result_app, ?recorded_app, ?Hres, ?Hnone; simpl; try done;
      try (by intros e' [= <-]);
      try (by apply exit_msgs_ok_other).
Qed.

(** *** The order of the session setup *)

Lemma order_inv_init : order_inv (init w s).
Proof. split; simpl; try done; try lia; apply precedes_nil. Qed.

Lemma order_inv_step st t st' :
  order_inv st → step w s t st = Some st' → order_inv st'.
Proof.
  intros Hinv Hstep.
  step_cases Hstep;
    destruct Hinv as [Hpty Hin Hout Herr Hsh Hwd Hwg0 Hwg Hei Hoi Hes Hos Hed Hod
                        P1 P2 P3 P4 P5 P6 P7 P8 P9];
    split; simpl in *; rewrite ?count_app; simpl.
  all: repeat match goal with
         | H : pc _ = _ |- _ => rewrite H in *; simpl in *
         | H : stderrCopy _ = _ |- _ => rewrite H in *; simpl in *
         | H : stdoutCopy _ = _ |- _ => rewrite H in *; simpl in *
         | H : bool_decide _ = true |- _ => apply bool_decide_eq_true in H
         end.
  all: try lia.
  all: try done.
  all: try (apply precedes_app; [assumption|]; simpl;
            first [by left | right; auto with lia]).
  all: try (intros; first [apply Hei; lia | apply Hoi; lia | apply Hwg0; lia]).
  all: try (intros Hx; first [specialize (Hed Hx) | specialize (Hod Hx)]; lia).
  all: intros; try feed Hwd; try feed Hwg0; try feed Hwg; try feed Hei; try feed Hoi;
    try done; try lia.
  all: try solve [destruct (stderrCopy st), (stdoutCopy st); simpl in *; (done || lia)].
  all: try solve [destruct Hwd as [Hwd1 Hwd2]; auto].
  all: first [apply Hes; lia | apply Hos; lia].
Qed.

(** *** What holds after every schedule *)

Lemma defers_inv_run sched : defers_inv w s (run w s sched (init w s)).
Proof. apply run_ind; eauto using defers_inv_init, defers_inv_step. Qed.

Lemma exit_msg_inv_run sched : exit_msg_inv w (run w s sched (init w s)).
Proof. apply run_ind; eauto using exit_msg_inv_init, exit_msg_inv_step. Qed.

Lemma order_inv_run sched : order_inv (run w s sched (init w s)).
Proof. apply run_ind; eauto using order_inv_init, order_inv_step. Qed.

Lemma session_never_dials sched :
  count is_dial (trace (run w s sched (init w s))) = 0.
Proof.
  apply (run_ind (fun st => count is_dial (trace st) = 0)); [done|].
  intros st t st' Hinv Hstep.
  step_cases Hstep; simpl; rewrite ?count_app; simpl; lia.
Qed.

End Session.

(** ** Terminal restoration (C7) *)

(** C7: [interactiveSession] returns through one of its exit paths
    (terminal not usable, terminal size, pseudo-terminal request, stream
    opening, shell start, remote exit with or without error); on each of
    them the terminal has been restored exactly once if raw mode was
    entered, after it was entered and with the snapshot that
    [term.MakeRaw] returned, and at no moment more than once; if entering
    raw mode fails no snapshot is kept and no restoration is ever
    attempted. *)
Theorem restore_exactly_once w s sched :
  let st := run w s sched (init w s) in
  (∀ err, returned st = Some err →
     exit_path w s err ∧
     count is_restore (trace st) = match term_MakeRaw w with Ok _ => 1 | Err _ => 0 end) ∧
  count is_restore (trace st) ≤ 1 ∧
  precedes is_make_raw is_restore (trace st) ∧
  (∀ state, EvRestore state ∈ trace st → term_MakeRaw w = Ok state) ∧
  (∀ e, term_MakeRaw w = Err e →
     count is_restore (trace st) = 0 ∧ ∀ state, DRestore state ∉ defers st).
Proof.
  intros st. destruct (defers_inv_run w s sched) as [Hr _ Hd Hp Ht _ Hrf Hx].
  change (run w s sched (init w s)) with st in Hr, Hd, Hp, Ht, Hrf, Hx.
  rewrite Forall_forall in Hp. rewrite Forall_forall in Ht. split_and!.
  - intros err Hret. apply returned_done in Hret. split; [by apply Hx; right|].
    rewrite (Hd _ Hret), Hret in Hr. simpl in Hr. lia.
  - destruct (stage (pc st) <=? 1), (term_MakeRaw w); lia.
  - exact Hrf.
  - intros state Hin. by apply (Ht (EvRestore state)).
  - intros e Herr. rewrite Herr in Hr. split.
    + destruct (stage (pc st) <=? 1); lia.
    + intros state Hin. apply Hp in Hin. simpl in Hin. congruence.
Qed.

(** A session that runs to its end, one whose pseudo-terminal is refused,
    and one on a machine without a terminal. *)
Lemma restore_exactly_once_witness :
  count is_restore (trace (run sample_world quiet_session full_schedule
                             (init sample_world quiet_session))) = 1 ∧
  count is_restore (trace (run sample_world pty_refused_session full_schedule
                             (init sample_world pty_refused_session))) = 1 ∧
  count is_restore (trace (run no_tty_world quiet_session full_schedule
                             (init no_tty_world quiet_session))) = 0.
Proof.
  split_and!.
  - exact (proj2 (proj1 (restore_exactly_once sample_world quiet_session full_schedule)
                    None eq_refl)).
  - exact (proj2 (proj1 (restore_exactly_once sample_world pty_refused_session full_schedule)
                    (Some "ssh: pty-req failed") eq_refl)).
  - exact (proj1 (proj2 (proj2 (proj2 (proj2
             (restore_exactly_once no_tty_world quiet_session full_schedule))))
             "inappropriate ioctl for device" eq_refl)).
Defined.

(** ** The final message (C8) *)



(** The messages of three sample runs, each ending the trace: without a
    failed write the default text; with a failed write that was recorded
    before the return, its error; and with a failed write whose
    recording had not yet happened when the deferred closure ran, the
    default text again. *)
Lemma final_message_examples :
  last (trace (run sample_world quiet_session full_schedule
                 (init sample_world quiet_session)))
  = Some (EvExitMsg ("the connection was closed on the remote side on  02 Jan 06 15:04 MST"
                     +:+ nl)) ∧
  last (trace (run sample_world broken_pipe_session recording_schedule
                 (init sample_world broken_pipe_session)))
  = Some (EvExitMsg ("EOF" +:+ nl)) ∧
  (let tr := trace (run sample_world broken_pipe_session full_schedule
                      (init sample_world broken_pipe_session)) in
   relay_result tr = Some "EOF" ∧
   last tr = Some (EvExitMsg ("the connection was closed on the remote side on  02 Jan 06 15:04 MST"
                              +:+ nl))).
Proof. split_and!; [..|split]; vm_compute; reflexivity. Qed.

(** ** The order of the session setup (C9) *)




(** Under a schedule that never runs the input relay the session still
    comes to its end: the relay is left running. *)
Lemma input_relay_not_awaited :
  let st := run sample_world quiet_session output_only_schedule
              (init sample_world quiet_session) in
  returned st = Some None ∧ stdinRelay st = Running.
Proof. split; reflexivity. Qed.

(** ** Errors of the input relay (C2) *)

(** The claim of C2 fails for a read error: the relay ends, the error is
    printed, and the exit-message field is left as it was. *)
Lemma read_error_not_recorded :
  let st := run closed_stdin_world quiet_session (replicate 13 TMain)
              (init closed_stdin_world quiet_session) in
  ¬ (∀ st' e,
       step closed_stdin_world quiet_session TStdin st = Some st' →
       rd_err eof_read = Some e → exitMsg st' = e).
Proof.
  intros st Hclaim.
  specialize (Hclaim (stdin_iter eof_read [] st) "EOF" eq_refl eq_refl).
  vm_compute in Hclaim. discriminate Hclaim.
Qed.

(** While the input goroutine runs or has ended, no step of another
    goroutine touches where it stands or the exit-message field. *)
Lemma relay_untouched w s st t st' :
  t ≠ TStdin → 11 < stage (pc st) → step w s t st = Some st' →
  relayPc st' = relayPc st ∧ stdinRelay st' = stdinRelay st ∧ exitMsg st' = exitMsg st.
Proof.
  intros Hother Hlate Hstep.
  step_cases Hstep; try done; simpl;
    repeat match goal with
      | H : pc _ = _ |- _ => rewrite H in *; simpl in *
      end; first [done | vm_compute in Hlate; lia].
Qed.

(** C2, amended: a failed read of the local input is printed and ends
    the input relay, and nothing is recorded.  A failed write to the
    stdin pipe is printed and then recorded in the exit-message field,
    and the relay ends: these are the relay's next two steps after the
    write, they can always be taken, and no step of another goroutine in
    between changes where the relay stands or what the field holds.  In every case the controller,
    the wait group, the other goroutines and the session are left alone:
    nothing is closed. *)
Theorem input_relay_errors w s sched st' :
  let st := run w s sched (init w s) in
  step w s TStdin st = Some st' →
  (∀ r rest e,
     relayPc st = AtRead → stdinSrc st = r :: rest → rd_err r = Some e →
     trace st' = trace st ++ [EvPrint (e +:+ nl)] ∧ stdinRelay st' = Finished ∧
     exitMsg st' = exitMsg st ∧ recorded (trace st') = None) ∧
  (∀ r rest e,
     relayPc st = AtRead → stdinSrc st = r :: rest →
     rd_err r = None → (0 < rd_n r)%Z → (next_write (writeRes st)).1 = Some e →
     trace st'
     = trace st ++ [EvStdinWrite (take (Z.to_nat (rd_n r)) (rd_buf r)) (Some e)] ∧
     stdinRelay st' = Running ∧ relayPc st' = AtPrintln e) ∧
  (∀ e, relayPc st = AtPrintln e →
     trace st' = trace st ++ [EvPrint (e +:+ nl)] ∧
     stdinRelay st' = Running ∧ relayPc st' = AtSetExitMsg e) ∧
  (∀ e, relayPc st = AtSetExitMsg e →
     relay_result (trace st) = Some e ∧
     trace st' = trace st ++ [EvSetExitMsg e] ∧
     exitMsg st' = e ∧ stdinRelay st' = Finished) ∧
  (pc st' = pc st ∧ defers st' = defers st ∧ wg st' = wg st ∧
   stderrCopy st' = stderrCopy st ∧ stdoutCopy st' = stdoutCopy st ∧
   watcher st' = watcher st) ∧
  (∃ evs, trace st' = trace st ++ evs ∧
          (EvSessionClose ∉ evs) ∧ (EvClientClose ∉ evs)) ∧
  (∀ t st2, t ≠ TStdin → step w s t st' = Some st2 →
     relayPc st2 = relayPc st' ∧ stdinRelay st2 = stdinRelay st' ∧
     exitMsg st2 = exitMsg st') ∧
  (stdinRelay st' = Running → relayPc st' ≠ AtRead → is_Some (step w s TStdin st')).
Proof.
  intros st Hstep.
  pose proof (exit_msg_inv_run w s sched) as Hinv.
  change (run w s sched (init w s)) with st in Hinv.
  pose proof (exit_msg_inv_step w s st TStdin st' Hinv Hstep) as Hinv'.
  destruct Hinv as [_ Hi _ _ Hp Hn _ _].
  simpl in Hstep. unfold step_stdin in Hstep.
  destruct (stdinRelay st) eqn:Hrelay; try done.
  unfold pending_error in Hp. rewrite Hrelay in Hp.
  specialize (Hn ltac:(done)).
  assert (Hlate : 11 < stage (pc st')).
  { destruct (decide (stage (pc st) ≤ 11)) as [Hearly|?]; [by specialize (Hi Hearly)|].
    assert (pc st' = pc st) as ->; [|lia].
    destruct (relayPc st); [destruct (stdinSrc st); [done|]|..]; simplify_eq;
      unfold stdin_iter; by repeat case_match. }
  refine (conj _ (conj _ (conj _ (conj _ (conj _ (conj _ (conj _ _))))))).
  - intros r rest e Hpc Hsrc Herr. rewrite Hpc, Hsrc in Hstep. simplify_eq.
    unfold stdin_iter. rewrite Herr. simpl. split_and!; try done.
    by rewrite recorded_app, Hn.
  - intros r rest e Hpc Hsrc Herr Hlen Hwrite. rewrite Hpc, Hsrc in Hstep. simplify_eq.
    unfold stdin_iter. rewrite Herr. apply Z.ltb_lt in Hlen. rewrite Hlen.
    destruct (next_write (writeRes st)) as [we wr]. simpl in Hwrite. by subst we.
  - intros e Hpc. rewrite Hpc in Hstep. by simplify_eq.
  - intros e Hpc. rewrite Hpc in Hstep, Hp. simplify_eq.
    by destruct (Hp e eq_refl) as [-> _].
  - destruct (relayPc st); [destruct (stdinSrc st); [done|]|..]; simplify_eq;
      unfold stdin_iter; by repeat case_match.
  - destruct (relayPc st); [destruct (stdinSrc st); [done|]|..]; simplify_eq;
      unfold stdin_iter; repeat case_match; simpl; eexists;
      (split; [try done; by rewrite app_nil_r|]); split; elem_of_trace.
  - intros t st2 Hother Hstep2. by eapply relay_untouched.
  - intros Hrun Hpc. simpl. unfold step_stdin. rewrite Hrun.
    by destruct (relayPc st').
Qed.

(** The standard input of [closed_stdin_world] is at its end when the
    relay first reads it. *)
Lemma input_relay_errors_witness :
  let st := run closed_stdin_world quiet_session (replicate 13 TMain)
              (init closed_stdin_world quiet_session) in
  trace (stdin_iter eof_read [] st) = trace st ++ [EvPrint ("EOF" +:+ nl)] ∧
  stdinRelay (stdin_iter eof_read [] st) = Finished ∧
  exitMsg (stdin_iter eof_read [] st) = exitMsg st ∧
  recorded (trace (stdin_iter eof_read [] st)) = None.
Proof.
  intros st.
  assert (Hstep : step closed_stdin_world quiet_session TStdin st
                  = Some (stdin_iter eof_read [] st)) by (vm_compute; reflexivity).
  destruct (input_relay_errors closed_stdin_world quiet_session (replicate 13 TMain)
              (stdin_iter eof_read [] st) Hstep) as [Hread _].
  apply (Hread eof_read [] "EOF"); vm_compute; reflexivity.
Defined.

(** ** The authentication methods (C3) *)

Lemma authMethods_no_dial w server : count is_dial (authMethods w server).1 = 0.
Proof. unfold authMethods. by repeat case_match. Qed.

(** The trace of [connectToServer] once the methods are built. *)
Lemma connectToServer_dial w server sched auth :
  (authMethods w server).2 = Ok auth →
  ∃ rest,
    (connectToServer w server sched).1 =
    (authMethods w server).1 ++
    EvDial "tcp" (Address server +:+ ":" +:+ pretty (Port server))
      {| cfgUser := User server; cfgAuth := auth;
         cfgHostKeyCallback := InsecureIgnoreHostKey |} :: rest
    ∧ count is_dial rest = 0.
Proof.
  intros Hauth. unfold connectToServer.
  destruct (authMethods w server) as [tr r]; simpl in Hauth; subst r.
  destruct (ssh_Dial w _ _ _) as [client|e]; simpl.
  - destruct (NewSession client) as [session|e]; simpl.
    + unfold interactiveSession.
      pose proof (session_never_dials w session sched) as Hnd.
      destruct (returned _); simpl; rewrite <- !app_assoc; simpl; eexists;
        (split; [done|]); simpl; rewrite ?count_app; simpl; lia.
    + rewrite <- !app_assoc. simpl. by eexists.
  - by eexists.
Qed.

(** C3: the methods offered to the server follow from the auth kind
    alone.  Whatever dial is made carries the list that was built; with
    key authentication the list holds the key and nothing else, with a
    password and no key it holds the password and nothing else, and with
    neither it is empty, the dial is made all the same and
    [connectToServer] does not panic. *)
Theorem auth_methods_by_kind w server sched :
  (∀ network address config,
     EvDial network address config ∈ (connectToServer w server sched).1 →
     (authMethods w server).2 = Ok (cfgAuth config)) ∧
  (UseKey server = true →
     ∀ auth, (authMethods w server).2 = Ok auth → ∃ key, auth = [PublicKeys key]) ∧
  (UseKey server = false → Password server ≠ "" →
     (authMethods w server).2 = Ok [PasswordAuth (Password server)]) ∧
  (UseKey server = false → Password server = "" →
     (authMethods w server).2 = Ok [] ∧
     count is_dial (connectToServer w server sched).1 = 1 ∧
     ∀ msg, (connectToServer w server sched).2 ≠ Panicked msg).
Proof.
  split_and!.
  - intros network address config Hin.
    destruct (authMethods w server).2 as [auth|e] eqn:Hauth.
    + destruct (connectToServer_dial w server sched auth Hauth) as (rest & Htr & Hrest).
      rewrite Htr in Hin. rewrite elem_of_app, elem_of_cons in Hin.
      destruct Hin as [Hin|[Heq|Hin]].
      * apply authMethods_events in Hin as [path Hin]. done.
      * by simplify_eq.
      * rewrite count_zero in Hrest. by specialize (Hrest _ Hin).
    + exfalso. unfold connectToServer in Hin.
      pose proof (authMethods_events w server (EvDial network address config)) as Hev.
      destruct (authMethods w server) as [tr r]; simpl in *; subst r.
      destruct (Hev Hin) as [path Hpath]. done.
  - intros Hkey auth. unfold authMethods. rewrite Hkey.
    repeat case_match; simpl; intros; simplify_eq. by eexists.
  - intros Hkey Hpw. unfold authMethods. rewrite Hkey.
    by rewrite bool_decide_eq_true_2.
  - intros Hkey Hpw.
    assert (Hauth : (authMethods w server).2 = Ok []).
    { unfold authMethods. rewrite Hkey. by rewrite bool_decide_eq_false_2 by auto. }
    split_and!; [done| |apply connectToServer_no_panic].
    destruct (connectToServer_dial w server sched [] Hauth) as (rest & -> & Hrest).
    rewrite count_app, authMethods_no_dial. simpl. lia.
Qed.

Lemma auth_methods_by_kind_witness :
  (∃ key, [PublicKeys (MkSigner "SHA256:db1")] = [PublicKeys key]) ∧
  (authMethods sample_world bare).2 = Ok [] ∧
  count is_dial (connectToServer sample_world bare full_schedule).1 = 1.
Proof.
  split_and!.
  - exact (proj1 (proj2 (auth_methods_by_kind sample_world db1 full_schedule))
             eq_refl [PublicKeys (MkSigner "SHA256:db1")] eq_refl).
  - exact (proj1 (proj2 (proj2 (proj2 (auth_methods_by_kind sample_world bare full_schedule)))
                    eq_refl eq_refl)).
  - exact (proj1 (proj2 (proj2 (proj2 (proj2 (auth_methods_by_kind sample_world bare
                                                  full_schedule))) eq_refl eq_refl))).
Defined.

(** ** Progress: the session can always come to its end *)

Lemma run_app w s sched sched' st :
  run w s (sched ++ sched') st = run w s sched' (run w s sched st).
Proof. unfold run. by rewrite foldl_app. Qed.

Lemma run_step w s t sched st st' :
  step w s t st = Some st' → run w s (t :: sched) st = run w s sched st'.
Proof. intros Hstep. unfold run. simpl. unfold sched_step. by rewrite Hstep. Qed.

(** While [interactiveSession] has not returned, some goroutine can take
    a step that brings the return nearer: the function itself, or, while
    it waits in [wg.Wait()], an output relay that has not finished. *)
Lemma progress w s st :
  order_inv st → returned st = None →
  ∃ t st', step w s t st = Some st' ∧ steps_left st' < steps_left st.
Proof.
  intros [_ _ _ _ _ _ _ Hwg Hei Hoi Hes Hos _ _ _ _ _ _ _ _ _ _ _] Hret.
  unfold returned in Hret.
  destruct (pc st) eqn:Hpc; try done.
  14: {
    (* PcWgWait *)
    simpl in Hwg, Hes, Hos. feed Hwg. feed Hes. feed Hos.
    destruct (stderrCopy st) eqn:He; [done| |].
    - exists TStderr. simpl. unfold step_stderr, next_write. rewrite He.
      destruct (stderrSrc st) as [|chunk rest] eqn:Hsrc;
        [|destruct (stderrWr st) as [|[e|] wr]]; eexists; (split; [done|]);
        unfold steps_left; simpl; rewrite Hpc, He, Hsrc; simpl; lia.
    - destruct (stdoutCopy st) eqn:Ho; [done| |].
      + exists TStdout. simpl. unfold step_stdout, next_write. rewrite Ho.
        destruct (stdoutSrc st) as [|chunk rest] eqn:Hsrc;
          [|destruct (stdoutWr st) as [|[e|] wr]]; eexists; (split; [done|]);
          unfold steps_left; simpl; rewrite Hpc, He, Ho, Hsrc; simpl; lia.
      + exists TMain. simpl. unfold step_main. rewrite Hpc.
        simpl in Hwg. rewrite bool_decide_eq_true_2 by lia.
        eexists. split; [done|]. unfold steps_left. simpl. rewrite Hpc. simpl. lia. }
  all: exists TMain; simpl; unfold step_main, check, run_deferred; rewrite Hpc;
    repeat case_match; eexists; (split; [done|]);
    unfold steps_left; simpl;
    repeat match goal with H : defers _ = _ |- _ => rewrite H; simpl end;
    rewrite ?Hpc, ?Hei, ?Hoi by (simpl; lia); simpl; lia.
Qed.

Lemma can_return_within w s n : ∀ st,
  steps_left st ≤ n → order_inv st → ∃ sched, is_Some (returned (run w s sched st)).
Proof.
  induction n as [|n IH]; intros st Hn Hinv;
    (destruct (returned st) as [err|] eqn:Hret; [by exists []; simpl; rewrite Hret|]);
    destruct (progress w s st Hinv Hret) as (t & st' & Hstep & Hless); [lia|].
  destruct (IH st') as [sched Hsched]; [lia|by eapply order_inv_step|].
  exists (t :: sched). by rewrite (run_step _ _ _ _ _ _ Hstep).
Qed.

(** Whatever has been scheduled so far, the schedule can be continued so
    that [interactiveSession] returns. *)
Lemma session_can_return w s sched :
  ∃ sched', is_Some (returned (run w s (sched ++ sched') (init w s))).
Proof.
  destruct (can_return_within w s (steps_left (run w s sched (init w s)))
              (run w s sched (init w s))) as [sched' Hret];
    [done|apply order_inv_run|].
  exists sched'. by rewrite run_app.
Qed.

(** * Further properties of the code *)

(** ** [loadConfig] and the selection of the server *)

(** X1: [loadConfig] closes the inventory file exactly once when it could
    be opened, also when decoding fails, and never otherwise; the
    configuration it returns is the decoded one and its error is the
    error of the call that failed. *)
Theorem loadConfig_closes_file w filename :
  count is_file_close (loadConfig w filename).1
  = match os_Open w filename with Ok _ => 1 | Err _ => 0 end ∧
  (∀ config, (loadConfig w filename).2 = Ok config →
     ∃ file, os_Open w filename = Ok file ∧ json_Decode w file = Ok config) ∧
  (∀ e, (loadConfig w filename).2 = Err e →
     os_Open w filename = Err e ∨
     ∃ file, os_Open w filename = Ok file ∧ json_Decode w file = Err e).
Proof.
  unfold loadConfig. destruct (os_Open w filename) as [file|e] eqn:Hopen.
  - destruct (json_Decode w file) as [config|e] eqn:Hdec; simpl;
      split_and!; try done; intros; simplify_eq; eauto.
  - simpl. split_and!; try done. intros; simplify_eq; eauto.
Qed.

Lemma first_match_Some test servers server :
  first_match test servers = Some server →
  ∃ pre post, servers = pre ++ server :: post ∧ test server = true ∧
              ∀ x, x ∈ pre → test x = false.
Proof.
  induction servers as [|x servers IH]; [done|]. simpl.
  destruct (test x) eqn:Hx.
  - intros [= ->]. exists [], servers. split_and!; [done..|].
    intros y Hy. by apply elem_of_nil in Hy.
  - intros Hrest. destruct (IH Hrest) as (pre & post & -> & Hs & Hpre).
    exists (x :: pre), post. split_and!; [done..|].
    intros y Hy. apply elem_of_cons in Hy as [->|Hy]; auto.
Qed.

Lemma first_match_None test servers :
  first_match test servers = None → ∀ x, x ∈ servers → test x = false.
Proof.
  induction servers as [|y servers IH]; simpl.
  - intros _ x Hx. by apply elem_of_nil in Hx.
  - destruct (test y) eqn:Hy; [done|]. intros Hrest x Hx.
    apply elem_of_cons in Hx as [->|Hx]; auto.
Qed.

Lemma first_match_elem test servers server :
  first_match test servers = Some server → server ∈ servers.
Proof.
  intros Hm. destruct (first_match_Some _ _ _ Hm) as (pre & post & -> & _).
  rewrite elem_of_app, elem_of_cons. auto.
Qed.

(** X2: when [-alias] is given, [-ip] is never looked at: the server
    selected, and what is printed while selecting, are the same for
    every value of [-ip], also when the alias matches nothing. *)
Theorem alias_flag_hides_ip_flag w args config ip :
  aliasFlag args ≠ "" →
  selectServer w (with_ip ip args) config = selectServer w args config.
Proof.
  intros Halias. unfold selectServer, select_by_flags. simpl.
  by rewrite !bool_decide_eq_true_2.
Qed.

Lemma alias_flag_hides_ip_flag_witness :
  selectServer sample_world (with_ip "10.0.0.5" alias_flags) {| Servers := [bare; db1] |}
  = selectServer sample_world alias_flags {| Servers := [bare; db1] |}.
Proof. apply (alias_flag_hides_ip_flag sample_world alias_flags); done. Defined.

Lemma selectServer_elem w args config server :
  (selectServer w args config).2 = Some server → server ∈ Servers config.
Proof.
  unfold selectServer, select_by_flags, select_interactive.
  repeat case_match; simplify_eq; simpl; intros Hsel; simplify_eq;
    eauto using first_match_elem, list_elem_of_lookup_2.
Qed.

(** X3: the server [main] connects to is always an entry of the
    inventory. *)
Theorem selected_server_in_inventory w args config server :
  (selectServer w args config).2 = Some server → server ∈ Servers config.
Proof. apply selectServer_elem. Qed.

Lemma selected_server_in_inventory_witness :
  db1 ∈ Servers {| Servers := [bare; db1] |}.
Proof.
  apply (selected_server_in_inventory sample_world alias_flags
           {| Servers := [bare; db1] |}).
  reflexivity.
Defined.

(** X4: among several entries that match a flag the one listed first is
    taken: every entry before the selected one fails the test of the
    flag, [strings.EqualFold] on the alias for [-alias], equality of the
    address for [-ip]. *)
Theorem flag_selects_first_listed w args config server :
  select_by_flags w args config = Some server →
  ∃ pre post,
    Servers config = pre ++ server :: post ∧
    if bool_decide (aliasFlag args ≠ "")
    then strings_EqualFold w (Alias server) (aliasFlag args) = true ∧
         ∀ x, x ∈ pre → strings_EqualFold w (Alias x) (aliasFlag args) = false
    else ipFlag args ≠ "" ∧ Address server = ipFlag args ∧
         ∀ x, x ∈ pre → Address x ≠ ipFlag args.
Proof.
  unfold select_by_flags. intros Hsel.
  destruct (bool_decide (aliasFlag args ≠ "")) eqn:Ha.
  - destruct (first_match_Some _ _ _ Hsel) as (pre & post & Heq & Hs & Hpre). eauto.
  - destruct (bool_decide (ipFlag args ≠ "")) eqn:Hi; [|done].
    destruct (first_match_Some _ _ _ Hsel) as (pre & post & Heq & Hs & Hpre).
    exists pre, post. apply bool_decide_eq_true in Hi, Hs. split_and!; [done..|].
    intros x Hx. specialize (Hpre x Hx). by apply bool_decide_eq_false in Hpre.
Qed.

Lemma flag_selects_first_listed_witness :
  ∃ pre post,
    [bare; db1; db1_again] = pre ++ db1 :: post ∧
    (String.eqb (Alias db1) "db1" = true ∧
     ∀ x, x ∈ pre → String.eqb (Alias x) "db1" = false).
Proof.
  exact (flag_selects_first_listed sample_world alias_flags
           {| Servers := [bare; db1; db1_again] |} db1 eq_refl).
Defined.

(** X5: the prompt and the numbered list are printed exactly when the
    flags selected nothing; the list has one line per entry of the
    inventory, in its order, numbered from 1. *)
Theorem menu_lists_every_server w args config :
  (select_by_flags w args config ≠ None → (selectServer w args config).1 = []) ∧
  (select_by_flags w args config = None →
     ∃ lines,
       (selectServer w args config).1
       = EvPrint ("Please select a server to connect to:" +:+ nl) :: lines ∧
       length lines = length (Servers config) ∧
       ∀ i server, Servers config !! i = Some server →
         lines !! i
         = Some (EvPrint (pretty (Z.of_nat i + 1)%Z +:+ ". " +:+ Alias server +:+ " ("
                          +:+ Address server +:+ ":" +:+ pretty (Port server) +:+ ")"
                          +:+ nl))).
Proof.
  unfold selectServer. split.
  - destruct (select_by_flags w args config); done.
  - intros ->. unfold select_interactive. exists (menu (Servers config)).
    split_and!.
    + by destruct (first_match _ _).
    + unfold menu. by rewrite length_imap.
    + intros i server Hi. unfold menu. by rewrite list_lookup_imap, Hi.
Qed.

(** ** The transport connector *)

Section Connector.

Context (w : World) (server : Server) (sched : list tid).


Lemma authMethods_connector_events :
  ∀ e, e ∈ (authMethods w server).1 → connector_event e = true.
Proof. intros e He. by apply authMethods_events in He as [path ->]. Qed.

(** The run of [connectToServer] when it obtains a session. *)
Lemma connectToServer_with_session s :
  opened_session w server = Some s →
  ∃ auth,
    (authMethods w server).2 = Ok auth ∧
    connectToServer w server sched =
    let pre := (authMethods w server).1 ++
               [EvDial "tcp" (dial_address server)
                  {| cfgUser := User server; cfgAuth := auth;
                     cfgHostKeyCallback := InsecureIgnoreHostKey |};
                EvNewSession] in
    match returned (run w s sched (init w s)) with
    | Some err =>
        (pre ++ trace (run w s sched (init w s)) ++ [EvSessionClose; EvClientClose],
         Returned err)
    | None => (pre ++ trace (run w s sched (init w s)), Hung)
    end.
Proof.
  unfold opened_session, dialled, connectToServer, dial_address, interactiveSession.
  destruct (authMethods w server) as [tr [auth|e]]; simpl; [|done].
  destruct (ssh_Dial w _ _ _) as [client|e]; [|done].
  destruct (NewSession client) as [session|e]; [|done].
  intros [= ->]. exists auth. split; [done|].
  destruct (returned _); by rewrite <- !app_assoc.
Qed.

Lemma authMethods_count f :
  (∀ path, f (EvReadFile path) = false) → count f (authMethods w server).1 = 0.
Proof.
  intros Hf. apply count_zero. intros e He.
  by apply authMethods_events in He as [path ->].
Qed.

(** The run of [connectToServer] when it obtains no session. *)
Lemma connectToServer_without_session :
  opened_session w server = None →
  (∃ msg, (connectToServer w server sched).2 = Returned (Some msg)) ∧
  (∀ e, e ∈ (connectToServer w server sched).1 → connector_event e = true) ∧
  count is_session_close (connectToServer w server sched).1 = 0 ∧
  count is_client_close (connectToServer w server sched).1
  = match dialled w server with Some _ => 1 | None => 0 end ∧
  count is_dial (connectToServer w server sched).1
  = match (authMethods w server).2 with Ok _ => 1 | Err _ => 0 end.
Proof.
  pose proof authMethods_connector_events as Hev.
  pose proof (authMethods_count is_session_close (fun _ => eq_refl)) as Hsc.
  pose proof (authMethods_count is_client_close (fun _ => eq_refl)) as Hcc.
  pose proof (authMethods_count is_dial (fun _ => eq_refl)) as Hd.
  unfold opened_session, dialled, connectToServer, dial_address.
  destruct (authMethods w server) as [tr [auth|e]]; simpl in *.
  - destruct (ssh_Dial w _ _ _) as [client|e]; simpl.
    + destruct (NewSession client) as [session|e]; [done|]. intros _. simpl.
      rewrite !count_app, Hsc, Hcc, Hd. simpl.
      split_and!; [by eexists| |done..].
      intros e0. rewrite !elem_of_app, !list_elem_of_singleton.
      intros He0. destruct_or!; subst; auto.
    + intros _. rewrite !count_app, Hsc, Hcc, Hd. simpl.
      split_and!; [by eexists| |done..].
      intros e0. rewrite !elem_of_app, !list_elem_of_singleton.
      intros He0. destruct_or!; subst; auto.
  - intros _. split_and!; [by eexists|done..].
Qed.

End Connector.

Lemma connectToServer_dials w server sched :
  count is_dial (connectToServer w server sched).1
  = match (authMethods w server).2 with Ok _ => 1 | Err _ => 0 end ∧
  ∀ network address config,
    EvDial network address config ∈ (connectToServer w server sched).1 →
    network = "tcp" ∧ address = dial_address server ∧ cfgUser config = User server.
Proof.
  destruct (authMethods w server).2 as [auth|e] eqn:Hauth.
  - destruct (connectToServer_dial w server sched auth Hauth) as (rest & -> & Hrest).
    split.
    + rewrite count_app, authMethods_no_dial. simpl. lia.
    + intros network address config. rewrite elem_of_app, elem_of_cons.
      intros [Hin|[Heq|Hin]].
      * by apply authMethods_events in Hin as [path ?].
      * by simplify_eq.
      * rewrite count_zero in Hrest. by specialize (Hrest _ Hin).
  - assert (Htr : (connectToServer w server sched).1 = (authMethods w server).1).
    { unfold connectToServer.
      destruct (authMethods w server) as [tr r]; simpl in *; by subst r. }
    rewrite Htr. split; [apply authMethods_no_dial|].
    intros network address config Hin.
    by apply authMethods_events in Hin as [path ?].
Qed.

(** X6: [connectToServer] dials exactly once when the authentication
    methods could be built and never otherwise; the dial goes over tcp to
    the address and port of the target, as the user of the target. *)
Theorem dial_once_to_target w server sched :
  count is_dial (connectToServer w server sched).1
  = match (authMethods w server).2 with Ok _ => 1 | Err _ => 0 end ∧
  ∀ network address config,
    EvDial network address config ∈ (connectToServer w server sched).1 →
    network = "tcp" ∧ address = dial_address server ∧ cfgUser config = User server.
Proof. apply connectToServer_dials. Qed.


(** X8: without a session [connectToServer] leaves the local terminal
    alone: when the methods cannot be built, the dial fails or the
    session is refused, an error is returned and nothing has been done
    but reading the key, dialling, asking for the session and closing
    the client. *)
Theorem no_session_no_terminal w server sched :
  opened_session w server = None →
  (∃ msg, (connectToServer w server sched).2 = Returned (Some msg)) ∧
  (∀ e, e ∈ (connectToServer w server sched).1 → connector_event e = true) ∧
  count is_make_raw (connectToServer w server sched).1 = 0.
Proof.
  intros Hopen.
  destruct (connectToServer_without_session w server sched Hopen)
    as (Hout & Hev & _).
  split_and!; [done..|].
  apply count_zero. intros e He. specialize (Hev e He). by destruct e.
Qed.

Lemma no_session_no_terminal_witness :
  count is_make_raw (connectToServer unreachable_world db1 full_schedule).1 = 0.
Proof.
  exact (proj2 (proj2 (no_session_no_terminal unreachable_world db1 full_schedule
                         eq_refl))).
Defined.

Lemma authMethods_error w server msg :
  (authMethods w server).2 = Err msg →
  UseKey server = true ∧
  ((∃ e, user_Current w = Err e ∧ msg = "failed to get home directory: " +:+ e) ∨
   (∃ homeDir e,
      user_Current w = Ok homeDir ∧ os_ReadFile w (keyPath server homeDir) = Err e ∧
      msg = "failed to read private key " +:+ keyPath server homeDir +:+ ": " +:+ e) ∨
   (∃ homeDir key e,
      user_Current w = Ok homeDir ∧ os_ReadFile w (keyPath server homeDir) = Ok key ∧
      ssh_ParsePrivateKey w key = Err e ∧
      msg = "failed to parse private key " +:+ keyPath server homeDir +:+ ": " +:+ e)).
Proof.
  unfold authMethods, getHomeDir.
  destruct (UseKey server); [|by case_match].
  destruct (user_Current w) as [homeDir|e]; simpl; [|intros [= <-]; eauto 10].
  destruct (os_ReadFile w (keyPath server homeDir)) as [key|e] eqn:Hread; simpl;
    [|intros [= <-]; split; [done|]; right; left; by exists homeDir, e].
  destruct (ssh_ParsePrivateKey w key) as [signer|e] eqn:Hparse; simpl; [done|].
  intros [= <-]. split; [done|]. right. right. by exists homeDir, key, e.
Qed.

(** X9: every error [connectToServer] returns is one of its own five,
    each wrapping the error of the call that failed, made with the
    arguments [connectToServer] gives it, or is the error of one of the
    exit paths of the interactive session, handed on as it is. *)
Theorem connect_error_origin w server sched msg :
  (connectToServer w server sched).2 = Returned (Some msg) →
  (∃ e, UseKey server = true ∧ user_Current w = Err e ∧
        msg = "failed to get home directory: " +:+ e) ∨
  (∃ homeDir e,
     UseKey server = true ∧ user_Current w = Ok homeDir ∧
     os_ReadFile w (keyPath server homeDir) = Err e ∧
     msg = "failed to read private key " +:+ keyPath server homeDir +:+ ": " +:+ e) ∨
  (∃ homeDir key e,
     UseKey server = true ∧ user_Current w = Ok homeDir ∧
     os_ReadFile w (keyPath server homeDir) = Ok key ∧
     ssh_ParsePrivateKey w key = Err e ∧
     msg = "failed to parse private key " +:+ keyPath server homeDir +:+ ": " +:+ e) ∨
  (∃ auth e,
     (authMethods w server).2 = Ok auth ∧
     ssh_Dial w "tcp" (dial_address server)
       {| cfgUser := User server; cfgAuth := auth;
          cfgHostKeyCallback := InsecureIgnoreHostKey |} = Err e ∧
     msg = "failed to connect to server " +:+ dial_address server +:+ ": " +:+ e) ∨
  (∃ client e,
     dialled w server = Some client ∧ NewSession client = Err e ∧
     msg = "failed to create session on server " +:+ dial_address server
           +:+ ": " +:+ e) ∨
  (∃ s, opened_session w server = Some s ∧ exit_path w s (Some msg)).
Proof.
  destruct (opened_session w server) as [s|] eqn:Hopen.
  - destruct (connectToServer_with_session w server sched s Hopen) as (auth & Hauth & ->).
    cbv zeta. destruct (returned _) as [err|] eqn:Hret; simpl; [|done].
    intros [= ->]. do 5 right. exists s. split; [done|].
    apply returned_done in Hret.
    destruct (defers_inv_run w s sched) as [_ _ _ _ _ _ _ Hx]. apply Hx. by right.
  - pose proof (authMethods_error w server) as Hauth_err.
    revert Hopen. unfold opened_session, dialled, connectToServer, dial_address.
    destruct (authMethods w server) as [tr [auth|e]]; simpl in *.
    + destruct (ssh_Dial w _ _ _) as [client|e] eqn:Hdial.
      * destruct (NewSession client) as [session|e] eqn:Hnew; [done|].
        intros _ [= <-]. do 4 right. left. by exists client, e.
      * intros _ [= <-]. do 3 right. left. by exists auth, e.
    + intros _ [= <-]. destruct (Hauth_err e eq_refl) as [Hkey Hcases].
      destruct Hcases as [(e' & ? & ?)|[(homeDir & e' & ? & ? & ?)
                                       |(homeDir & key & e' & ? & ? & ? & ?)]].
      * left. by exists e'.
      * right. left. by exists homeDir, e'.
      * right. right. left. by exists homeDir, key, e'.
Qed.

(** The dial of [db1] is refused on [unreachable_world]. *)
Lemma connect_error_origin_witness :
  ∃ auth e,
    (authMethods unreachable_world db1).2 = Ok auth ∧
    ssh_Dial unreachable_world "tcp" (dial_address db1)
      {| cfgUser := User db1; cfgAuth := auth;
         cfgHostKeyCallback := InsecureIgnoreHostKey |} = Err e ∧
    "failed to connect to server 10.0.0.5:22: dial tcp 10.0.0.5:22: connect: connection refused"
    = "failed to connect to server " +:+ dial_address db1 +:+ ": " +:+ e.
Proof.
  destruct (connect_error_origin unreachable_world db1 full_schedule _ eq_refl)
    as [(e & _ & H & _)|[(h & e & _ & _ & H & _)|[(h & k & e & _ & _ & _ & H & _)
       |[H|[(c & e & H & _)|(s & H & _)]]]]];
    [discriminate H..|exact H|discriminate H|discriminate H].
Defined.

(** ** The setup of the session *)

Lemma setup_inv_init w s : setup_inv w s (init w s).
Proof.
  split; simpl; try done; try lia; try apply precedes_nil.
  intros [?|[?|?]]; done.
Qed.

Lemma setup_inv_step w s st t st' :
  setup_inv w s st → step w s t st = Some st' → setup_inv w s st'.
Proof.
  intros Hinv Hstep.
  step_cases Hstep;
    destruct Hinv as [Hraw Hsize Hpty Hin Hout Herr Hnp H1p Hwi Hw Hrel Hev Hpf];
    split; simpl in *; rewrite ?count_app, ?Forall_app; simpl.
  all: repeat match goal with
         | H : pc _ = _ |- _ => rewrite H in *; simpl in *
         end.
  all: try lia; try done.
  all: try (apply precedes_app; [assumption|]; simpl;
            first [by left | right; apply Hw; congruence]).
  all: intros;
    try feed Hraw; try feed Hpty; try feed Hin; try feed Hout; try feed Herr;
    try feed Hnp; try feed Hwi;
    try specialize (Hsize _ _ eq_refl);
    try (assert (pty_accepted w s ∧ 0 < count is_pty (trace st)) as [? ?]
           by (apply Hw; congruence));
    try (assert (pty_accepted w s ∧ streams_opened s) as [? ?]
           by (apply Hrel;
               first [left; congruence | right; left; congruence
                     | right; right; congruence])).
  all: try lazymatch type of Hpty with _ ∧ _ => destruct Hpty as [Hpty Hseen] end.
  all: try lazymatch type of Hraw with ex _ => destruct Hraw as [state Hraw] end.
  all: try lia; try done; try congruence.
  all: try solve [split; [assumption|lia]].
  all: try solve [eauto].
  all: try solve [split; [done| repeat constructor; simpl; done]].
  all: unfold pty_accepted, streams_opened, termType in *; simpl;
    repeat match goal with H : bool_decide _ = _ |- _ => rewrite H in * end.
  all: try solve [split; [eexists _, _, _; split_and!; eauto|lia]].
  all: try solve [split; [done|]; repeat constructor; simpl;
                  unfold pty_accepted, streams_opened, termType in *;
                  repeat match goal with H : bool_decide _ = _ |- _ => rewrite H in * end;
                  eauto 10].
  all: split; [done|]; rewrite ?Forall_cons, Forall_nil; simpl;
    unfold pty_accepted, streams_opened, termType; auto.
Qed.

Lemma setup_inv_run w s sched : setup_inv w s (run w s sched (init w s)).
Proof. apply run_ind; eauto using setup_inv_init, setup_inv_step. Qed.

(** X10: the pseudo-terminal is requested at most once; the request
    carries the value of TERM, or xterm-256color when TERM is empty, and
    the height and the width that [term.GetSize] answered without error,
    and it is made in raw mode. *)
Theorem pty_request_parameters w s sched :
  let tr := trace (run w s sched (init w s)) in
  count is_pty tr ≤ 1 ∧
  ∀ ty h w', EvRequestPty ty h w' ∈ tr →
    ty = (if bool_decide (os_Getenv_TERM w = "") then "xterm-256color"
          else os_Getenv_TERM w) ∧
    term_GetSize w = (w', h, None) ∧
    ∃ state, term_MakeRaw w = Ok state.
Proof.
  intros tr. destruct (setup_inv_run w s sched) as [_ _ _ _ _ _ _ H1 _ _ _ Hev _].
  split; [done|]. intros ty h w' Hin.
  rewrite Forall_forall in Hev. exact (Hev _ Hin).
Qed.

(** X11: the goroutines start only after the setup they rely on: the
    resize watcher once raw mode is entered, the size read and the
    pseudo-terminal accepted; the three relays, and the request for the
    shell, once the three streams have been opened as well.  So a failed
    step of the setup starts nothing that comes after it. *)
Theorem goroutines_start_after_setup w s sched :
  let tr := trace (run w s sched (init w s)) in
  (EvGo TWinch ∈ tr → pty_accepted w s) ∧
  (∀ t, t ≠ TWinch → EvGo t ∈ tr → pty_accepted w s ∧ streams_opened s) ∧
  (EvShell ∈ tr → pty_accepted w s ∧ streams_opened s).
Proof.
  intros tr. destruct (setup_inv_run w s sched) as [_ _ _ _ _ _ _ _ _ _ _ Hev _].
  rewrite Forall_forall in Hev. split_and!.
  - intros Hin. exact (Hev _ Hin).
  - intros t Ht Hin. specialize (Hev _ Hin). by destruct t.
  - intros Hin. exact (Hev _ Hin).
Qed.

(** X12: no resize request is sent before the pseudo-terminal has been
    requested, and none at all unless it was accepted. *)
Theorem resize_only_with_pty w s sched :
  let tr := trace (run w s sched (init w s)) in
  precedes is_pty is_window_change tr ∧
  ∀ h w', EvWindowChange h w' ∈ tr → pty_accepted w s.
Proof.
  intros tr. destruct (setup_inv_run w s sched) as [_ _ _ _ _ _ _ _ _ _ _ Hev Hpf].
  split; [done|]. intros h w' Hin. rewrite Forall_forall in Hev. exact (Hev _ Hin).
Qed.

(** ** The wait group *)

Lemma wg_inv_init w s : wg_inv (init w s).
Proof. split; simpl; auto; lia. Qed.

Lemma wg_inv_step w s st t st' :
  wg_inv st → step w s t st = Some st' → wg_inv st'.
Proof.
  intros Hinv Hstep.
  step_cases Hstep; destruct Hinv as [Hsum He Ha Hoi Hei Hde Hdo];
    split; simpl in *; rewrite ?count_app; simpl.
  all: repeat match goal with
         | H : pc _ = _ |- _ => rewrite H in *; simpl in *
         | H : stderrCopy _ = _ |- _ => rewrite H in *; simpl in *
         | H : stdoutCopy _ = _ |- _ => rewrite H in *; simpl in *
         end.
  all: intros; try feed He; try feed Ha; try feed Hoi; try feed Hei.
  all: try lia; try done; try tauto.
  all: try lazymatch type of He with _ ∧ _ => destruct He as (Hw0 & He1 & He2) end.
  all: destruct Hsum as [Hsum|(Hsum & Hs1 & Hs2)]; try done;
    repeat match goal with
      | H : stderrCopy _ = _ |- _ => rewrite H in *; simpl in *
      | H : stdoutCopy _ = _ |- _ => rewrite H in *; simpl in *
      end;
    try lia; try (left; lia).
Qed.

Lemma wg_inv_run w s sched : wg_inv (run w s sched (init w s)).
Proof. apply run_ind; eauto using wg_inv_init, wg_inv_step. Qed.

(** X13: the counter of the wait group stays between 0 and 2 whatever
    the schedule, and each output relay calls [wg.Done()] at most once:
    the counter never becomes negative. *)
Theorem wait_group_never_negative w s sched :
  let st := run w s sched (init w s) in
  (0 ≤ wg st ≤ 2)%Z ∧
  count (is_wg_done TStderr) (trace st) ≤ 1 ∧
  count (is_wg_done TStdout) (trace st) ≤ 1.
Proof.
  intros st. destruct (wg_inv_run w s sched) as [Hsum _ _ _ _ Hde Hdo].
  change (run w s sched (init w s)) with st in Hsum, Hde, Hdo.
  rewrite Hde, Hdo.
  destruct Hsum as [Hsum|(Hsum & -> & ->)];
    destruct (stderrCopy st), (stdoutCopy st); simpl in *; lia.
Qed.

(** ** What the relays move *)

Lemma count_positive f tr e : e ∈ tr → f e = true → 0 < count f tr.
Proof.
  intros He Hf. destruct (count f tr) eqn:Hc; [|lia].
  rewrite count_zero in Hc. rewrite (Hc e He) in Hf. done.
Qed.

Lemma copied_app t tr tr' : copied t (tr ++ tr') = copied t tr ++ copied t tr'.
Proof. apply omap_app. Qed.

Lemma written_app tr tr' : written (tr ++ tr') = written tr ++ written tr'.
Proof. apply omap_app. Qed.

Lemma chunks_of_app reads reads' :
  chunks_of (reads ++ reads') = chunks_of reads ++ chunks_of reads'.
Proof. apply omap_app. Qed.

Lemma next_write_drop answers k :
  next_write (drop k answers) = (write_answer answers k, drop (S k) answers).
Proof.
  unfold write_answer. replace (S k) with (k + 1) by lia. rewrite <- drop_drop.
  by destruct (drop k answers).
Qed.

Lemma stream_inv_start stream answers src wr done :
  stream_inv stream answers Idle src wr done →
  stream_inv stream answers Running src wr done.
Proof. intros [Hsplit Hwritten Hanswers _]. split; try done. by intros _; apply Hanswers. Qed.

(** One round of [io.Copy]: the next chunk is written, or the copy ends
    with the error of the write. *)
Lemma stream_inv_round stream answers chunk rest wr done :
  stream_inv stream answers Running (chunk :: rest) wr done →
  match next_write wr with
  | (None, wr') => stream_inv stream answers Running rest wr' (done ++ [chunk])
  | (Some _, wr') => stream_inv stream answers Finished (chunk :: rest) wr' done
  end.
Proof.
  intros [Hsplit Hwritten Hanswers _].
  rewrite (Hanswers ltac:(done)), next_write_drop.
  destruct (write_answer answers (length done)) as [e|] eqn:Hanswer.
  - split; try done. intros _. right. by exists e.
  - split; try done.
    + by rewrite <- app_assoc.
    + intros k. rewrite length_app. simpl. intros Hk.
      destruct (decide (k = length done)) as [->|?]; [done|]. apply Hwritten. lia.
    + intros _. rewrite length_app. simpl. f_equal. lia.
Qed.

Lemma stream_inv_end stream answers wr done :
  stream_inv stream answers Running [] wr done →
  stream_inv stream answers Finished [] wr done.
Proof. intros [Hsplit Hwritten _ _]. split; try done. by left. Qed.

Lemma output_inv_init w s : output_inv w s (init w s).
Proof. split; simpl; [split; simpl; try done; lia..|lia]. Qed.

(** A step that copies nothing and leaves the output relays where they
    stand, or starts one. *)
Lemma output_inv_frame w s st st' evs :
  output_inv w s st →
  trace st' = trace st ++ evs → copied TStderr evs = [] → copied TStdout evs = [] →
  stderrSrc st' = stderrSrc st → stderrWr st' = stderrWr st →
  stdoutSrc st' = stdoutSrc st → stdoutWr st' = stdoutWr st →
  stderrCopy st' = stderrCopy st ∨ (stderrCopy st = Idle ∧ stderrCopy st' = Running) →
  stdoutCopy st' = stdoutCopy st ∨ (stdoutCopy st = Idle ∧ stdoutCopy st' = Running) →
  count is_session_wait evs = 0 ∨
  (stderrCopy st' = Finished ∧ stdoutCopy st' = Finished) →
  output_inv w s st'.
Proof.
  intros [Herr Hout Hwait] Htr Hce Hco Hes Hew Hos How Hse Hso Hw.
  split; rewrite Htr, ?copied_app, ?Hce, ?Hco, ?app_nil_r, ?Hes, ?Hew, ?Hos, ?How.
  - destruct Hse as [->|[Hidle ->]]; [done|].
    apply stream_inv_start. by rewrite <- Hidle.
  - destruct Hso as [->|[Hidle ->]]; [done|].
    apply stream_inv_start. by rewrite <- Hidle.
  - rewrite count_app. destruct Hw as [->|?]; [|done].
    rewrite Nat.add_0_r. intros Hwaited. destruct (Hwait Hwaited) as [He Ho].
    destruct Hse as [->|[? _]], Hso as [->|[? _]]; split; congruence.
Qed.

Lemma output_inv_step w s st t st' :
  order_inv st → output_inv w s st → step w s t st = Some st' → output_inv w s st'.
Proof.
  intros Hord Hinv Hstep. pose proof (oi_waited _ Hord) as Hwaited.
  pose proof (oi_stderr_idle _ Hord) as Hei. pose proof (oi_stdout_idle _ Hord) as Hoi.
  destruct (decide (t = TStderr)) as [->|Hne].
  { destruct Hinv as [Herr Hout Hwait].
    simpl in Hstep. unfold step_stderr in Hstep.
    destruct (stderrCopy st) eqn:Hcopy; try done.
    assert (Hnot : ¬ 0 < count is_session_wait (trace st)).
    { intros Hw. destruct (Hwait Hw) as [? _]. congruence. }
    destruct (stderrSrc st) as [|chunk rest] eqn:Hsrc.
    - simplify_eq. split; simpl; rewrite ?copied_app, ?count_app; simpl;
        rewrite ?app_nil_r, ?Nat.add_0_r; [by apply stream_inv_end|done|done].
    - pose proof (stream_inv_round _ _ _ _ _ _ Herr) as Hround.
      destruct (next_write (stderrWr st)) as [[e|] wr]; simplify_eq;
        split; simpl; rewrite ?copied_app, ?count_app; simpl;
        rewrite ?app_nil_r, ?Nat.add_0_r; done. }
  destruct (decide (t = TStdout)) as [->|Hne'].
  { destruct Hinv as [Herr Hout Hwait].
    simpl in Hstep. unfold step_stdout in Hstep.
    destruct (stdoutCopy st) eqn:Hcopy; try done.
    assert (Hnot : ¬ 0 < count is_session_wait (trace st)).
    { intros Hw. destruct (Hwait Hw) as [_ ?]. congruence. }
    destruct (stdoutSrc st) as [|chunk rest] eqn:Hsrc.
    - simplify_eq. split; simpl; rewrite ?copied_app, ?count_app; simpl;
        rewrite ?app_nil_r, ?Nat.add_0_r; [done|by apply stream_inv_end|done].
    - pose proof (stream_inv_round _ _ _ _ _ _ Hout) as Hround.
      destruct (next_write (stdoutWr st)) as [[e|] wr]; simplify_eq;
        split; simpl; rewrite ?copied_app, ?count_app; simpl;
        rewrite ?app_nil_r, ?Nat.add_0_r; done. }
  step_cases Hstep; try done;
    (eapply (output_inv_frame w s st);
     [exact Hinv
     |simpl; first [reflexivity | symmetry; apply app_nil_r]
     |reflexivity|reflexivity|reflexivity|reflexivity|reflexivity|reflexivity
     | | | ]); simpl;
    repeat match goal with
      | H : pc _ = _ |- _ => rewrite H in *; simpl in *
      end;
    first [ by left
          | right; split; [first [apply Hei | apply Hoi]; vm_compute; lia|done]
          | right; apply Hwaited; reflexivity ].
Qed.

Lemma output_inv_run w s sched : output_inv w s (run w s sched (init w s)).
Proof.
  apply (run_ind w s (fun st => order_inv st ∧ output_inv w s st)).
  - split; [apply order_inv_init|apply output_inv_init].
  - intros st t st' [Hord Hout] Hstep. split.
    + by eapply order_inv_step.
    + by eapply output_inv_step.
Qed.

(** X14: the output relays copy the chunks of the remote standard
    output and standard error in order, without loss and without
    repetition, and every chunk copied was written without error.  When
    the remote exit status is asked for both copies have ended: each
    stream has been copied as far as it could be read, unless a write to
    the local stream failed, at the first chunk not copied.  The error
    of [io.Copy] is discarded, so the session goes on either way. *)
Theorem output_copied_until_error w s sched :
  let tr := trace (run w s sched (init w s)) in
  (∃ rest, remote_stdout s = copied TStdout tr ++ rest) ∧
  (∃ rest, remote_stderr s = copied TStderr tr ++ rest) ∧
  (∀ k, k < length (copied TStdout tr) → write_answer (os_Stdout_Write w) k = None) ∧
  (∀ k, k < length (copied TStderr tr) → write_answer (os_Stderr_Write w) k = None) ∧
  (EvSessionWait ∈ tr →
     (copied TStdout tr = remote_stdout s ∨
      ∃ e, write_answer (os_Stdout_Write w) (length (copied TStdout tr)) = Some e) ∧
     (copied TStderr tr = remote_stderr s ∨
      ∃ e, write_answer (os_Stderr_Write w) (length (copied TStderr tr)) = Some e)).
Proof.
  intros tr. destruct (output_inv_run w s sched) as [Herr Hout Hwait].
  destruct Herr as [Hes Hew _ Hee], Hout as [Hos How _ Hoe].
  split_and!; [by eexists..|done|done|].
  intros Hin. destruct Hwait as [He Ho].
  { eapply count_positive; [done|]. done. }
  split.
  - destruct (Hoe Ho) as [Hnil|?]; [left|by right].
    rewrite Hnil in Hos. by rewrite app_nil_r in Hos.
  - destruct (Hee He) as [Hnil|?]; [left|by right].
    rewrite Hnil in Hes. by rewrite app_nil_r in Hes.
Qed.

Lemma writes_stop_at_failure_other tr evs :
  writes_stop_at_failure tr → written evs = [] → writes_stop_at_failure (tr ++ evs).
Proof.
  intros Hok Hnone pre chunk err post Heq.
  apply app_eq_app_cons in Heq as [[post' ->]|(pre' & -> & ->)].
  - by eapply Hok.
  - by rewrite written_app in Hnone; destruct (written pre').
Qed.

Lemma writes_stop_at_failure_write tr chunk err evs :
  writes_stop_at_failure tr → relay_result tr = None → written evs = [] →
  writes_stop_at_failure (tr ++ EvStdinWrite chunk err :: evs).
Proof.
  intros Hok Hres Hnone pre chunk' err' post Heq.
  apply app_eq_app_cons in Heq as [[post' ->]|(pre' & -> & Heq)].
  - by eapply Hok.
  - destruct pre' as [|e pre']; simpl in Heq; simplify_eq.
    + by rewrite app_nil_r.
    + by rewrite written_app in Hnone; destruct (written pre').
Qed.

Lemma input_inv_init w s : input_inv w (init w s).
Proof.
  split; simpl.
  - exists []. by split_and!.
  - intros pre chunk err post Heq. by destruct pre.
Qed.

Lemma input_inv_frame w st st' evs :
  input_inv w st →
  trace st' = trace st ++ evs → written evs = [] → stdinSrc st' = stdinSrc st →
  (stdinRelay st' ≠ Finished → stdinRelay st ≠ Finished) →
  input_inv w st'.
Proof.
  intros [(consumed & Hall & Hwr & Hok) Hstop] Htr Hevs Hsrc Hrelay. split.
  - exists consumed. rewrite Htr, Hsrc, written_app, Hevs, app_nil_r. auto.
  - rewrite Htr. by apply writes_stop_at_failure_other.
Qed.

Lemma input_inv_step w s st t st' :
  exit_msg_inv w st → input_inv w st → step w s t st = Some st' → input_inv w st'.
Proof.
  intros Hmsg Hinv Hstep. pose proof (em_running _ _ Hmsg) as Hrun.
  pose proof (em_idle _ _ Hmsg) as Hidle.
  destruct (decide (t = TStdin)) as [->|Hother]; last first.
  { step_cases Hstep; try done;
      (eapply (input_inv_frame w st);
       [exact Hinv
       |simpl; first [reflexivity | symmetry; apply app_nil_r]
       |reflexivity|reflexivity|]); simpl;
      repeat match goal with
        | H : pc _ = _ |- _ => rewrite H in *; simpl in *
        end;
      first [done | rewrite Hidle by (vm_compute; lia); done]. }
  pose proof Hinv as Hinv0.
  destruct Hinv as [(consumed & Hall & Hwr & Hok) Hstop].
  simpl in Hstep. unfold step_stdin in Hstep.
  destruct (stdinRelay st) eqn:Hrelay; try done.
  destruct (relayPc st) as [|e|e] eqn:Hpc;
    [|simplify_eq;
      (eapply (input_inv_frame w st);
       [exact Hinv0|reflexivity|reflexivity|reflexivity|by rewrite Hrelay])..].
  destruct (stdinSrc st) as [|r rest] eqn:Hsrc; simpl in Hstep; [done|]. simplify_eq.
  feed Hrun. feed Hrun. feed Hok.
  assert (Hall' : os_Stdin_Read w = (consumed ++ [r]) ++ rest)
    by by rewrite <- app_assoc.
  unfold stdin_iter, next_write.
  destruct (rd_err r) as [e|] eqn:Herr.
  - split; simpl.
    + exists (consumed ++ [r]). rewrite written_app, chunks_of_app; simpl.
      unfold chunk_of. rewrite Herr, !app_nil_r. by split_and!.
    + by apply writes_stop_at_failure_other.
  - destruct (0 <? rd_n r)%Z eqn:Hn.
    + assert (Hall_ok : Forall (fun r => rd_err r = None) (consumed ++ [r]))
        by (apply Forall_app; split; [done|by constructor]).
      destruct (writeRes st) as [|[e|] wr]; (split; simpl;
        [exists (consumed ++ [r]); rewrite written_app, chunks_of_app, Hwr; simpl;
         unfold chunk_of; rewrite Herr, Hn; by split_and!
        |by apply writes_stop_at_failure_write]).
    + split; simpl; [|done].
      exists (consumed ++ [r]). rewrite chunks_of_app; simpl.
      unfold chunk_of. rewrite Herr, Hn, app_nil_r. split_and!; try done.
      intros _. apply Forall_app. split; [done|by constructor].
Qed.

Lemma input_inv_run w s sched : input_inv w (run w s sched (init w s)).
Proof.
  apply (run_ind w s (fun st => exit_msg_inv w st ∧ input_inv w st)).
  - split; [apply exit_msg_inv_init|apply input_inv_init].
  - intros st t st' [Hmsg Hin] Hstep. split.
    + by eapply exit_msg_inv_step.
    + by eapply input_inv_step.
Qed.

(** X15: what the input relay hands to the stdin pipe is, in order, the
    first [n] bytes of the buffer of every read it has consumed that gave
    no error and [n > 0]: nothing read is lost, repeated or reordered,
    empty reads write nothing, and bytes that come with a read error are
    dropped.  While the relay runs, no read it consumed has failed. *)
Theorem input_relayed_in_order w s sched :
  let st := run w s sched (init w s) in
  ∃ consumed,
    os_Stdin_Read w = consumed ++ stdinSrc st ∧
    written (trace st) = chunks_of consumed ∧
    (stdinRelay st = Running → Forall (fun r => rd_err r = None) consumed).
Proof.
  intros st. destruct (input_inv_run w s sched) as [(consumed & Hall & Hwr & Hok) _].
  exists consumed. split_and!; [done..|]. intros Hrun. apply Hok.
  change (run w s sched (init w s)) with st. congruence.
Qed.

(** X16: once a write to the stdin pipe has failed nothing more is
    written to it: every write of a session comes before any failed
    one. *)
Theorem no_write_after_failed_write w s sched :
  let tr := trace (run w s sched (init w s)) in
  ∀ pre chunk err post,
    tr = pre ++ EvStdinWrite chunk err :: post → relay_result pre = None.
Proof. intros tr. by destruct (input_inv_run w s sched) as [_ Hstop]. Qed.

(** The first keystrokes meet a broken pipe: the write fails, and it is
    the only one. *)
Lemma no_write_after_failed_write_witness :
  let tr := trace (run sample_world broken_pipe_session full_schedule
                     (init sample_world broken_pipe_session)) in
  tr = take 12 tr ++ EvStdinWrite [x6c; x73] (Some "EOF") :: drop 13 tr ∧
  relay_result (take 12 tr) = None.
Proof.
  intros tr. split; [by vm_compute|].
  apply (no_write_after_failed_write sample_world broken_pipe_session full_schedule
           (take 12 tr) [x6c; x73] (Some "EOF") (drop 13 tr)).
  by vm_compute.
Defined.

(** ** The order of the deferred calls *)

Lemma defer_order_inv_init w s : defer_order_inv w (init w s).
Proof. split; simpl; [done|]. intros _. apply precedes_nil. Qed.

Lemma defer_order_inv_step w s st t st' :
  defers_inv w s st → defer_order_inv w st → step w s t st = Some st' →
  defer_order_inv w st'.
Proof.
  intros Hd Hinv Hstep. pose proof (di_restore _ _ _ Hd) as Hr.
  step_cases Hstep; destruct Hinv as [Hshape Hord]; split; simpl in *.
  all: repeat match goal with
         | H : pc _ = _ |- _ => rewrite H in *; simpl in *
         | H : defers _ = _ |- _ => rewrite H in *; simpl in *
         | H : term_MakeRaw _ = _ |- _ => rewrite H in *; simpl in *
         end.
  all: try done.
  all: try (by intros Hraw; apply precedes_app; [by apply Hord|by left]).
  all: try (by intros [state [=]]).
  all: try (intros Hraw; apply precedes_app; [by apply Hord|right];
            destruct Hshape as [?|[?|[state ?]]]; simplify_eq; simpl in *; lia).
  all: naive_solver.
Qed.

Lemma defer_order_inv_run w s sched : defer_order_inv w (run w s sched (init w s)).
Proof.
  apply (run_ind w s (fun st => defers_inv w s st ∧ defer_order_inv w st)).
  - split; [apply defers_inv_init|apply defer_order_inv_init].
  - intros st t st' [Hd Hinv] Hstep.
    split; [by eapply defers_inv_step|by eapply defer_order_inv_step].
Qed.

(** X17: the deferred calls run last-registered first: whenever the
    terminal was put into raw mode, the final message is printed only
    after the terminal has been restored, to the state that
    [term.MakeRaw] had saved. *)
Theorem final_message_after_restore w s sched state :
  term_MakeRaw w = Ok state →
  ∀ pre msg post,
    trace (run w s sched (init w s)) = pre ++ EvExitMsg msg :: post →
    EvRestore state ∈ pre.
Proof.
  intros Hraw pre msg post Htr.
  pose proof (do_order _ _ (defer_order_inv_run w s sched)) as Hord.
  pose proof (di_snapshot_restored _ _ _ (defers_inv_run w s sched)) as Hsnap.
  specialize (Hord (ex_intro _ state Hraw) pre (EvExitMsg msg) post Htr eq_refl).
  destruct (count is_restore pre) eqn:Hc; [lia|].
  assert (Hex : ∃ e, e ∈ pre ∧ is_restore e = true).
  { clear -Hc. induction pre as [|e pre IH]; simpl in Hc; [done|].
    destruct (is_restore e) eqn:He.
    - exists e. split; [apply list_elem_of_here|done].
    - destruct IH as (e' & Hin & He'); [by simpl in Hc|].
      exists e'. split; [by apply list_elem_of_further|done]. }
  destruct Hex as (e & Hin & He). destruct e; try done.
  rewrite Htr, Forall_app in Hsnap. destruct Hsnap as [Hsnap _].
  rewrite Forall_forall in Hsnap. specialize (Hsnap _ Hin). simpl in Hsnap.
  rewrite Hraw in Hsnap. by simplify_eq.
Qed.

(** A session on the sample machine run to its end: the restoration is
    the event before the final message. *)
Lemma final_message_after_restore_witness :
  let tr := trace (run sample_world quiet_session full_schedule
                     (init sample_world quiet_session)) in
  term_MakeRaw sample_world = Ok (Termios 0) ∧
  tr = take 19 tr ++ EvExitMsg (closed_msg sample_world) :: [] ∧
  EvRestore (Termios 0) ∈ take 19 tr.
Proof.
  split_and!; [done|by vm_compute|].
  by apply (final_message_after_restore sample_world quiet_session full_schedule
              (Termios 0) eq_refl _ (closed_msg sample_world) []).
Defined.

(** ** The resize watcher over many notifications *)

Lemma resize_requests_app evs evs' :
  resize_requests (evs ++ evs') = resize_requests evs ++ resize_requests evs'.
Proof. apply omap_app. Qed.

Lemma sigwinch_loop_app sigs sigs' : ∀ termWidth termHeight,
  sigwinch_loop termWidth termHeight (sigs ++ sigs')
  = match sigwinch_loop termWidth termHeight sigs with
    | (evs, None) => (evs, None)
    | (evs, Some (w, h)) =>
        let '(evs', next) := sigwinch_loop w h sigs' in (evs ++ evs', next)
    end.
Proof.
  induction sigs as [|sig sigs IH]; intros tw th; simpl.
  - by destruct (sigwinch_loop tw th sigs').
  - destruct (sigwinch_iter tw th sig) as [evs [[w h]|]]; [|done].
    rewrite IH. destruct (sigwinch_loop w h sigs) as [evs1 [[w1 h1]|]]; [|done].
    destruct (sigwinch_loop w1 h1 sigs') as [evs2 next]. by rewrite app_assoc.
Qed.

Lemma sigwinch_loop_failed_reads termWidth termHeight cw ch e n :
  (cw, ch) ≠ (termWidth, termHeight) →
  resize_requests
    (sigwinch_loop termWidth termHeight (replicate n (Sigwinch cw ch (Some e)))).1
  = replicate n (ch, cw) ∧
  (sigwinch_loop termWidth termHeight (replicate n (Sigwinch cw ch (Some e)))).2
  = Some (termWidth, termHeight).
Proof.
  intros Hne. induction n as [|n [IHreq IHnext]]; [done|].
  cbn [replicate sigwinch_loop].
  destruct (sigwinch_iter_changed termWidth termHeight cw ch (Some e) Hne) as [Hreq Hnext].
  destruct (sigwinch_iter _ _ _) as [evs next]. simpl in Hreq, Hnext. subst next.
  destruct (sigwinch_loop _ _ _) as [evs' next']. simpl in *.
  by rewrite resize_requests_app, Hreq, IHreq.
Qed.

(** X18: when [term.GetSize] fails on a notification and the size it
    answers with differs from the last-known one, the request is sent all
    the same but the last-known size is kept: every further notification
    answered that way sends the same request again. *)
Theorem failed_size_read_resends termWidth0 termHeight0 processed
    termWidth termHeight cw ch e n :
  (sigwinch_loop termWidth0 termHeight0 processed).2 = Some (termWidth, termHeight) →
  (cw, ch) ≠ (termWidth, termHeight) →
  let out := sigwinch_loop termWidth0 termHeight0
               (processed ++ replicate n (Sigwinch cw ch (Some e))) in
  resize_requests out.1
  = resize_requests (sigwinch_loop termWidth0 termHeight0 processed).1
    ++ replicate n (ch, cw) ∧
  out.2 = Some (termWidth, termHeight).
Proof.
  intros Hnext Hne. simpl. rewrite sigwinch_loop_app.
  destruct (sigwinch_loop termWidth0 termHeight0 processed) as [evs next].
  simpl in Hnext. subst next.
  destruct (sigwinch_loop_failed_reads termWidth termHeight cw ch e n Hne) as [Hreq Hkept].
  destruct (sigwinch_loop termWidth termHeight _) as [evs' next']. simpl in *.
  by rewrite resize_requests_app, Hreq.
Qed.

(** An 80x24 terminal whose size cannot be read any more: the size
    answered with the error is 0x0, and three notifications send three
    requests for it. *)
Lemma failed_size_read_resends_witness :
  let out := sigwinch_loop 80 24 ([] ++ replicate 3 (Sigwinch 0 0 (Some "bad file descriptor"))) in
  resize_requests out.1 = [(0%Z, 0%Z); (0%Z, 0%Z); (0%Z, 0%Z)] ∧ out.2 = Some (80%Z, 24%Z).
Proof.
  apply (failed_size_read_resends 80 24 [] 80 24 0 0 "bad file descriptor" 3 eq_refl).
  intros [= ? ?]; lia.
Defined.

Lemma sigwinch_loop_returns sigs : ∀ termWidth termHeight,
  (sigwinch_loop termWidth termHeight sigs).2 = None ↔ NilSignal ∈ sigs.
Proof.
  induction sigs as [|sig sigs IH]; intros tw th; simpl.
  - split; [done|]. by intros ?%elem_of_nil.
  - rewrite elem_of_cons. destruct sig as [|cw ch err]; simpl.
    + split; auto.
    + unfold sigwinch_iter.
      destruct (bool_decide (ch = th) && bool_decide (cw = tw));
        [|destruct err];
        match goal with
        | |- context [sigwinch_loop ?a ?b sigs] =>
            specialize (IH a b); destruct (sigwinch_loop a b sigs) as [evs next]
        end; simpl in *; rewrite IH; naive_solver.
Qed.

(** X19: the watcher returns on a nil notification and on nothing else,
    and what arrives after one is never handled: no size is read and no
    request is sent for it. *)
Theorem watcher_returns_on_nil_only termWidth termHeight sigs :
  ((sigwinch_loop termWidth termHeight sigs).2 = None ↔ NilSignal ∈ sigs) ∧
  ∀ pre post,
    sigs = pre ++ NilSignal :: post →
    sigwinch_loop termWidth termHeight sigs
    = sigwinch_loop termWidth termHeight (pre ++ [NilSignal]).
Proof.
  split; [apply sigwinch_loop_returns|].
  intros pre post ->. rewrite !sigwinch_loop_app.
  destruct (sigwinch_loop termWidth termHeight pre) as [evs [[w h]|]]; done.
Qed.

(** ** The watcher inside the session *)

Lemma watcher_inv_init w s : watcher_inv w (init w s).
Proof. split; simpl; [done|]. by intros []. Qed.

Lemma watcher_inv_frame w st st' evs :
  watcher_inv w st →
  trace st' = trace st ++ evs → resize_requests evs = [] → signals st' = signals st →
  watcher st' = watcher st ∨ (watcher st = WIdle ∧ watcher st' = WStart) →
  watcher_inv w st'.
Proof.
  intros [Hbefore Hloop] Htr Hevs Hsigs Hw.
  split; rewrite Htr, Hsigs, resize_requests_app, Hevs, app_nil_r.
  - intros Hst'. apply Hbefore. destruct Hw as [<-|[-> _]]; auto.
  - intros Hidle Hstart.
    destruct Hw as [Heq|[_ Heq]]; [|done]. rewrite Heq in *. by apply Hloop.
Qed.

Lemma watcher_inv_step w s st t st' :
  setup_inv w s st → watcher_inv w st → step w s t st = Some st' → watcher_inv w st'.
Proof.
  intros Hsetup Hinv Hstep. pose proof (su_winch_idle _ _ _ Hsetup) as Hidle.
  destruct (decide (t = TWinch)) as [->|Hother]; last first.
  { step_cases Hstep; try done;
      (eapply (watcher_inv_frame w st);
       [exact Hinv
       |simpl; first [reflexivity | symmetry; apply app_nil_r]
       |reflexivity|reflexivity|]); simpl;
      repeat match goal with
        | H : pc _ = _ |- _ => rewrite H in *; simpl in *
        end;
      first [by left | right; split; [apply Hidle; vm_compute; lia|done]]. }
  destruct Hinv as [Hbefore Hloop].
  simpl in Hstep. unfold step_winch in Hstep.
  destruct (watcher st) as [| |termWidth termHeight|] eqn:Hw; try done.
  - destruct (watcher_GetSize w) as [[tw th] err] eqn:Hsize. simplify_eq.
    destruct Hbefore as [Hreq Hsigs]; [by right|].
    split; simpl; [by intros [?|?]|]. intros _ _. exists [].
    unfold watcher_run. rewrite Hsize, resize_requests_app, Hreq. simpl.
    split_and!; [done| |done]. by destruct err.
  - destruct (signals st) as [|sig rest] eqn:Hsigs; [done|].
    destruct (sigwinch_iter termWidth termHeight sig) as [evs next] eqn:Hiter.
    simplify_eq.
    destruct Hloop as (processed & Hall & Hreq & Hnext); [done..|].
    split; simpl; [by intros [?|?]; destruct next as [[]|]|]. intros _ _.
    exists (processed ++ [sig]). unfold watcher_run in *.
    destruct (watcher_GetSize w) as [[tw0 th0] err0].
    rewrite sigwinch_loop_app.
    destruct (sigwinch_loop tw0 th0 processed) as [evs0 next0].
    simpl in Hnext, Hreq. subst next0. simpl. rewrite Hiter.
    split_and!.
    + by rewrite <- app_assoc.
    + destruct next as [[w' h']|]; simpl;
        by rewrite !resize_requests_app, ?app_nil_r, Hreq.
    + by destruct next as [[w' h']|].
Qed.

Lemma watcher_inv_run w s sched : watcher_inv w (run w s sched (init w s)).
Proof.
  apply (run_ind w s (fun st => setup_inv w s st ∧ watcher_inv w st)).
  - split; [apply setup_inv_init|apply watcher_inv_init].
  - intros st t st' [Hsetup Hinv] Hstep.
    split; [by eapply setup_inv_step|by eapply watcher_inv_step].
Qed.

(** X20: the resize requests of a session are those of the watcher loop
    over the notifications taken from the channel so far, in the order of
    their arrival and started from the size [term.GetSize] answered when
    the watcher began; the loop variables are where that loop stands.
    The session never stops its watcher: it has returned only if a nil
    notification arrived. *)
Theorem session_resize_requests w s sched :
  let st := run w s sched (init w s) in
  ∃ processed,
    sigwinchCh w = processed ++ signals st ∧
    resize_requests (trace st) = resize_requests (watcher_run w processed).1 ∧
    (∀ termWidth termHeight,
       watcher st = WLoop termWidth termHeight →
       (watcher_run w processed).2 = Some (termWidth, termHeight)) ∧
    (watcher st = WReturned → NilSignal ∈ processed).
Proof.
  simpl. destruct (watcher_inv_run w s sched) as [Hbefore Hloop].
  destruct (watcher (run w s sched (init w s))) eqn:Hw.
  1,2: destruct Hbefore as [Hreq Hsigs]; [auto|]; exists [];
    rewrite Hreq, Hsigs; unfold watcher_run;
    destruct (watcher_GetSize w) as [[tw0 th0] err0]; by split_and!.
  all: destruct Hloop as (processed & Hall & Hreq & Hnext); [done..|];
    exists processed; split_and!; [done|done|by intros ?? [= <- <-]|].
  - done.
  - intros _. unfold watcher_run in Hnext.
    destruct (watcher_GetSize w) as [[tw0 th0] err0].
    by apply sigwinch_loop_returns in Hnext.
Qed.

(** ** The whole program *)

Lemma count_main_events f tr :
  Forall (fun e => main_event e = true) tr →
  (∀ e, main_event e = true → f e = false) → count f tr = 0.
Proof.
  intros Hall Hf. apply count_zero. intros e He.
  rewrite Forall_forall in Hall. auto.
Qed.

Lemma loadConfig_main_events w filename :
  Forall (fun e => main_event e = true) (loadConfig w filename).1.
Proof. unfold loadConfig. repeat case_match; repeat constructor. Qed.

Lemma selectServer_main_events w args config :
  Forall (fun e => main_event e = true) (selectServer w args config).1.
Proof.
  unfold selectServer, select_interactive, menu.
  repeat case_match; simplify_eq; try constructor; try done;
    apply Forall_forall; intros e [i [server [-> _]]]%elem_of_lookup_imap; done.
Qed.

(** [main] either never reaches [connectToServer], or runs it once, on
    the selected server, between events of its own. *)
Lemma main_trace_cases w args sched :
  (Forall (fun e => main_event e = true) (main w args sched).1 ∧
   ((main w args sched).2 = Returned tt ∨ ∃ msg, (main w args sched).2 = Panicked msg)) ∨
  (∃ config server pre post,
     (loadConfig w (configFile args)).2 = Ok config ∧
     (selectServer w args config).2 = Some server ∧
     (main w args sched).1 = pre ++ (connectToServer w server sched).1 ++ post ∧
     Forall (fun e => main_event e = true) pre ∧
     Forall (fun e => main_event e = true) post ∧
     (main w args sched).2 = match (connectToServer w server sched).2 with
                             | Returned _ => Returned tt
                             | Panicked msg => Panicked msg
                             | Hung => Hung
                             end).
Proof.
  pose proof (loadConfig_main_events w (configFile args)) as Hload.
  unfold main.
  destruct (loadConfig w (configFile args)) as [tr [config|e]]; simpl in Hload.
  - pose proof (selectServer_main_events w args config) as Hsel.
    destruct (selectServer w args config) as [tr' [server|]] eqn:Hselect; simpl in Hsel.
    + right. exists config, server. rewrite Hselect.
      destruct (connectToServer w server sched) as [tr'' [[e|]|msg|]]; simpl;
        [eexists (tr ++ tr' ++ [_]), [_] | eexists (tr ++ tr' ++ [_]), [] ..];
        (split_and!; [done|done|by rewrite ?app_nil_r| | |done]);
        rewrite ?Forall_app; repeat split; try done; by repeat constructor.
    + left. simpl. rewrite Forall_app. eauto.
  - left. simpl. rewrite Forall_app. split; [|by left].
    split; [done|by repeat constructor].
Qed.

(** X21: [main] dials at most once, and only an entry of the inventory
    it has loaded: the one the selection returned, over tcp, at its
    address and port and as its user. *)
Theorem main_dials_inventory_entry_once w args sched :
  count is_dial (main w args sched).1 ≤ 1 ∧
  ∀ network address cfg,
    EvDial network address cfg ∈ (main w args sched).1 →
    ∃ config server,
      (loadConfig w (configFile args)).2 = Ok config ∧
      (selectServer w args config).2 = Some server ∧
      server ∈ Servers config ∧
      network = "tcp" ∧ address = dial_address server ∧ cfgUser cfg = User server.
Proof.
  destruct (main_trace_cases w args sched)
    as [[Hall _]|(config & server & pre & post & Hload & Hsel & -> & Hpre & Hpost & _)].
  - split.
    + rewrite (count_main_events is_dial _ Hall); [lia|by intros []].
    + intros network address cfg Hin.
      rewrite Forall_forall in Hall. by specialize (Hall _ Hin).
  - destruct (connectToServer_dials w server sched) as [Hcount Hdial]. split.
    + rewrite !count_app, Hcount.
      rewrite (count_main_events is_dial _ Hpre), (count_main_events is_dial _ Hpost)
        by by intros [].
      destruct (authMethods w server).2; lia.
    + intros network address cfg. rewrite !elem_of_app. intros [Hin|[Hin|Hin]].
      * rewrite Forall_forall in Hpre. by specialize (Hpre _ Hin).
      * exists config, server. destruct (Hdial _ _ _ Hin) as (-> & -> & ->).
        split_and!; try done. by eapply selectServer_elem.
      * rewrite Forall_forall in Hpost. by specialize (Hpost _ Hin).
Qed.

Lemma raw_inv_run w s sched : raw_inv (run w s sched (init w s)).
Proof.
  apply (run_ind w s raw_inv); [done|].
  intros st t st' Hinv Hstep.
  step_cases Hstep; unfold raw_inv in *; simpl in *; rewrite ?count_app; simpl;
    repeat match goal with
      | H : pc _ = _ |- _ => rewrite H in *; simpl in *
      end; lia.
Qed.

(** Raw mode and its restoration over a whole run of [connectToServer]. *)
Lemma connectToServer_raw_restore w server sched :
  count is_make_raw (connectToServer w server sched).1 ≤ 1 ∧
  ∀ err, (connectToServer w server sched).2 = Returned err →
    count is_restore (connectToServer w server sched).1
    = match term_MakeRaw w with
      | Ok _ => count is_make_raw (connectToServer w server sched).1
      | Err _ => 0
      end.
Proof.
  destruct (opened_session w server) as [s|] eqn:Hs.
  - destruct (connectToServer_with_session w server sched s Hs) as (auth & _ & ->).
    pose proof (raw_inv_run w s sched) as Hraw. unfold raw_inv in Hraw.
    pose proof (di_restore _ _ _ (defers_inv_run w s sched)) as Hrestore.
    pose proof (di_done _ _ _ (defers_inv_run w s sched)) as Hdone.
    pose proof (authMethods_count w server is_make_raw (fun _ => eq_refl)) as Ha.
    pose proof (authMethods_count w server is_restore (fun _ => eq_refl)) as Ha'.
    simpl. destruct (returned _) as [err|] eqn:Hret; simpl.
    + apply returned_done in Hret. rewrite Hret in Hraw, Hrestore. simpl in *.
      rewrite (Hdone _ Hret) in Hrestore. simpl in Hrestore.
      rewrite !count_app, Ha, Ha'. simpl. split; [lia|]. intros _ _.
      destruct (term_MakeRaw w); lia.
    + rewrite !count_app, Ha. simpl. split; [|done].
      destruct (stage _ <=? 1); lia.
  - destruct (connectToServer_without_session w server sched Hs) as (_ & Hev & _).
    assert (Hraw : count is_make_raw (connectToServer w server sched).1 = 0).
    { apply count_zero. intros e He. apply Hev in He. by destruct e. }
    assert (Hrestore : count is_restore (connectToServer w server sched).1 = 0).
    { apply count_zero. intros e He. apply Hev in He. by destruct e. }
    rewrite Hraw, Hrestore. split; [lia|]. intros _ _. by destruct (term_MakeRaw w).
Qed.

(** X22: [main] never returns with the terminal left in raw mode: raw
    mode is asked for at most once in a run; when [main] returns the
    terminal has been restored exactly once if raw mode was entered and
    not at all otherwise; and the panic of [main] happens before the
    terminal is touched. *)
Theorem main_restores_terminal w args sched :
  let tr := (main w args sched).1 in
  count is_make_raw tr ≤ 1 ∧
  ((main w args sched).2 = Returned tt →
     count is_restore tr
     = match term_MakeRaw w with Ok _ => count is_make_raw tr | Err _ => 0 end) ∧
  (∀ msg, (main w args sched).2 = Panicked msg →
     count is_make_raw tr = 0 ∧ count is_restore tr = 0).
Proof.
  simpl.
  destruct (main_trace_cases w args sched)
    as [[Hall _]|(config & server & pre & post & _ & _ & -> & Hpre & Hpost & ->)].
  - rewrite (count_main_events is_make_raw _ Hall), (count_main_events is_restore _ Hall)
      by by intros [].
    split_and!; [lia| |done]. by destruct (term_MakeRaw w).
  - destruct (connectToServer_raw_restore w server sched) as [Hraw Hrestore].
    pose proof (connectToServer_no_panic w server sched) as Hpanic.
    rewrite !count_app.
    rewrite (count_main_events is_make_raw _ Hpre), (count_main_events is_make_raw _ Hpost),
      (count_main_events is_restore _ Hpre), (count_main_events is_restore _ Hpost)
      by by intros [].
    destruct (connectToServer w server sched).2 as [err| |] eqn:Hout.
    + specialize (Hrestore err eq_refl). rewrite Hrestore.
      split_and!; [lia| |done]. intros _. destruct (term_MakeRaw w); lia.
    + by destruct (Hpanic msg).
    + split_and!; [lia|done..].
Qed.

(** ** The return of the session *)




(** ** The key file *)

(** X24: for a key-authenticated target exactly one file is read, and
    its path is the configured one with its first [~], wherever it
    stands, replaced by the home directory of the user who runs the
    program, not that of the remote user; a path without [~] is read as
    it is. *)
Theorem key_file_read w server homeDir :
  UseKey server = true → user_Current w = Ok homeDir →
  (authMethods w server).1 = [EvReadFile (keyPath server homeDir)] ∧
  (no_marker (PrivateKey server) → keyPath server homeDir = PrivateKey server) ∧
  (∀ pre post,
     no_marker pre → PrivateKey server = pre +:+ "~" +:+ post →
     keyPath server homeDir = pre +:+ homeDir +:+ post).
Proof.
  intros Hkey Hhome. split_and!.
  - unfold authMethods. rewrite Hkey, (getHomeDir_current_user w homeDir Hhome).
    by repeat case_match.
  - apply keyPath_without_marker.
  - intros pre post. apply keyPath_first_marker.
Qed.

(** The key of [db1] on the sample machine. *)
Lemma key_file_read_witness :
  (authMethods sample_world db1).1 = [EvReadFile "/home/me/.ssh/id_ed25519"].
Proof.
  destruct (key_file_read sample_world db1 "/home/me" eq_refl eq_refl) as (Hread & _ & Hpath).
  rewrite Hread. by rewrite (Hpath "" "/.ssh/id_ed25519").
Defined.

(** * The shell client *)




Lemma sh_count_app f tr tr' : sh_count f (tr ++ tr') = sh_count f tr + sh_count f tr'.
Proof. induction tr as [|e tr IH]; simpl; [done|]. rewrite IH. lia. Qed.

Lemma sh_count_zero f tr : sh_count f tr = 0 ↔ ∀ e, e ∈ tr → f e = false.
Proof.
  induction tr as [|e tr IH]; simpl.
  - split; [|done]. intros _ e He. by apply elem_of_nil in He.
  - split.
    + intros Hc e' He'. apply elem_of_cons in He' as [->|He'].
      * destruct (f e); [lia|done].
      * apply IH; [|done]. destruct (f e); lia.
    + intros Hall. rewrite (Hall e) by apply list_elem_of_here. simpl.
      apply IH. intros e' He'. apply Hall. by apply list_elem_of_further.
Qed.

(** The script after the selection. *)
Lemma ssh_sh_unfold sh ALIAS_FLAG :
  ssh_sh sh ALIAS_FLAG
  = match (selection sh ALIAS_FLAG).2 with
    | None => ((selection sh ALIAS_FLAG).1, Exit 1)
    | Some SERVER =>
        let tr :=
          (selection sh ALIAS_FLAG).1 ++ extractions SERVER ++ (SSH_CMD sh SERVER).1 ++
          [ShEcho ("Connecting to " +:+ field sh ".alias" SERVER +:+ " ("
                   +:+ field sh ".address" SERVER +:+ ":" +:+ field sh ".port" SERVER
                   +:+ ")...");
           ShRun (SSH_CMD sh SERVER).2] in
        if bool_decide (run_SSH_CMD sh (SSH_CMD sh SERVER).2 ≠ 0%Z)
        then (tr ++ [ShEcho ("Failed to connect to server " +:+ field sh ".alias" SERVER
                             +:+ ", exiting.")],
              Exit 1)
        else (tr, Completed)
    end.
Proof.
  unfold ssh_sh. destruct (selection sh ALIAS_FLAG) as [tr [SERVER|]]; simpl; [|done].
  by destruct (SSH_CMD sh SERVER) as [tr_cmd cmd].
Qed.

(** Neither the selection nor the assembly of the command line runs or
    prints anything but what is theirs. *)
Lemma selection_events sh ALIAS_FLAG e :
  e ∈ (selection sh ALIAS_FLAG).1 →
  match e with
  | ShEcho _ | ShJq _ (FromFile _) => True
  | ShOut _ | ShRead _ => ALIAS_FLAG = ""
  | _ => False
  end.
Proof.
  unfold selection, select_server.
  destruct (bool_decide (ALIAS_FLAG ≠ "")) eqn:Halias.
  - destruct (bool_decide (_ = "")); simpl;
      rewrite ?elem_of_cons, ?elem_of_nil; intros He; destruct_or!; by simplify_eq.
  - apply bool_decide_eq_false in Halias.
    assert (ALIAS_FLAG = "") by by destruct (decide (ALIAS_FLAG = "")).
    destruct (bool_decide (_ = "")); simpl;
      rewrite ?elem_of_app, ?elem_of_cons, ?elem_of_nil; intros He; destruct_or!;
      by simplify_eq.
Qed.

Lemma SSH_CMD_events sh SERVER e :
  e ∈ (SSH_CMD sh SERVER).1 →
  e = ShEval (field sh ".user" SERVER) ∧ field sh ".use_key" SERVER = "true".
Proof.
  unfold SSH_CMD. destruct (bool_decide (field sh ".use_key" SERVER = "true")) eqn:Hkey; simpl.
  - apply bool_decide_eq_true in Hkey. by intros ->%list_elem_of_singleton.
  - by intros ?%elem_of_nil.
Qed.

Lemma extractions_events SERVER e :
  e ∈ extractions SERVER → ∃ filter, e = ShJq filter (FromEcho SERVER).
Proof. unfold extractions. intros (filter & -> & _)%list_elem_of_fmap. by eexists. Qed.

Lemma sh_count_selection f sh ALIAS_FLAG :
  (∀ line, f (ShEcho line) = false) → (∀ filter input, f (ShJq filter input) = false) →
  (∀ text, f (ShOut text) = false) → (∀ prompt, f (ShRead prompt) = false) →
  sh_count f (selection sh ALIAS_FLAG).1 = 0.
Proof.
  intros ????. apply sh_count_zero. intros e He.
  apply selection_events in He. by destruct e.
Qed.

Lemma sh_count_SSH_CMD f sh SERVER :
  (∀ user, f (ShEval user) = false) → sh_count f (SSH_CMD sh SERVER).1 = 0.
Proof.
  intros ?. apply sh_count_zero. intros e He. by apply SSH_CMD_events in He as [-> _].
Qed.

Lemma sh_count_extractions f SERVER :
  (∀ filter, f (ShJq filter (FromEcho SERVER)) = false) →
  sh_count f (extractions SERVER) = 0.
Proof.
  intros ?. apply sh_count_zero. intros e He. by apply extractions_events in He as [? ->].
Qed.

(** X25: the script runs at most one command, and none when the
    selection found nothing.  It ends in one of two ways only: by
    [exit 1], or by running off its last statement, the latter exactly
    when the command it ran answered status 0; the status of a failed
    command is not handed on. *)
Theorem script_runs_one_command_or_exits sh ALIAS_FLAG :
  let tr := (ssh_sh sh ALIAS_FLAG).1 in
  let out := (ssh_sh sh ALIAS_FLAG).2 in
  sh_count is_run tr ≤ 1 ∧
  ((selection sh ALIAS_FLAG).2 = None ↔ sh_count is_run tr = 0) ∧
  (out = Completed ↔ ∃ cmd, ShRun cmd ∈ tr ∧ run_SSH_CMD sh cmd = 0%Z) ∧
  (out ≠ Completed → out = Exit 1).
Proof.
  cbv zeta. rewrite ssh_sh_unfold.
  pose proof (sh_count_selection is_run sh ALIAS_FLAG
                (fun _ => eq_refl) (fun _ _ => eq_refl) (fun _ => eq_refl)
                (fun _ => eq_refl)) as Hsel.
  pose proof (selection_events sh ALIAS_FLAG) as Hev.
  destruct (selection sh ALIAS_FLAG).2 as [SERVER|]; cbv zeta; cbn [fst snd].
  - pose proof (sh_count_SSH_CMD is_run sh SERVER (fun _ => eq_refl)) as Hcmd.
    pose proof (sh_count_extractions is_run SERVER (fun _ => eq_refl)) as Hext.
    assert (Hin : ∀ cmd,
      ShRun cmd ∈ (selection sh ALIAS_FLAG).1 ++ extractions SERVER ++
                  (SSH_CMD sh SERVER).1 ++
                  [ShEcho ("Connecting to " +:+ field sh ".alias" SERVER +:+ " ("
                           +:+ field sh ".address" SERVER +:+ ":"
                           +:+ field sh ".port" SERVER +:+ ")...");
                   ShRun (SSH_CMD sh SERVER).2] →
      cmd = (SSH_CMD sh SERVER).2).
    { intros cmd. rewrite !elem_of_app, !elem_of_cons, elem_of_nil.
      intros [Hin|[Hin|[Hin|[Hin|[Hin|[]]]]]]; simplify_eq; try done.
      - by apply Hev in Hin.
      - by apply extractions_events in Hin as [? ?].
      - by apply SSH_CMD_events in Hin as [? ?]. }
    destruct (bool_decide (run_SSH_CMD sh (SSH_CMD sh SERVER).2 ≠ 0%Z)) eqn:Hrun;
      cbn [fst snd]; rewrite !sh_count_app, Hsel, Hcmd, Hext; cbn [sh_count is_run].
    + apply bool_decide_eq_true in Hrun. split_and!; [lia|split; [done|lia]| |done].
      split; [done|]. intros (cmd & Hcmd_in & Hzero).
      rewrite elem_of_app, list_elem_of_singleton in Hcmd_in.
      destruct Hcmd_in as [Hcmd_in|?]; [|done].
      apply Hin in Hcmd_in. by subst cmd.
    + apply bool_decide_eq_false in Hrun. split_and!; [lia|split; [done|lia]| |done].
      split; [|done]. intros _. exists (SSH_CMD sh SERVER).2. split.
      * rewrite !elem_of_app, !elem_of_cons. auto 10.
      * destruct (decide (run_SSH_CMD sh (SSH_CMD sh SERVER).2 = 0%Z)); done.
  - rewrite Hsel. split_and!; [lia|done| |done].
    split; [done|]. intros (cmd & Hin & _). by apply Hev in Hin.
Qed.

(** X26: with an alias as argument the script never asks: the inventory
    is queried once, nothing is listed and nothing is read, also when no
    entry has that alias; it then prints its message and exits with
    status 1 instead of falling back to the interactive selection. *)
Theorem alias_argument_never_prompts sh ALIAS_FLAG :
  ALIAS_FLAG ≠ "" →
  let tr := (ssh_sh sh ALIAS_FLAG).1 in
  sh_count is_read tr = 0 ∧
  sh_count is_inventory_query tr = 1 ∧
  (command_substitution (jq_r sh (alias_filter ALIAS_FLAG) (FromFile CONFIG_FILE)) = "" →
   ssh_sh sh ALIAS_FLAG
   = ([ShJq (alias_filter ALIAS_FLAG) (FromFile CONFIG_FILE);
       ShEcho ("No server found with alias " +:+ dq +:+ ALIAS_FLAG +:+ dq +:+ ", exiting.")],
      Exit 1)).
Proof.
  intros Halias. cbv zeta. rewrite ssh_sh_unfold.
  unfold selection. rewrite bool_decide_eq_true_2 by done.
  destruct (bool_decide (command_substitution _ = "")) eqn:Hfound; cbv zeta; cbn [fst snd].
  - done.
  - apply bool_decide_eq_false in Hfound.
    set (SERVER := command_substitution _) in *.
    pose proof (sh_count_SSH_CMD is_read sh SERVER (fun _ => eq_refl)) as Hcmd.
    pose proof (sh_count_SSH_CMD is_inventory_query sh SERVER (fun _ => eq_refl)) as Hcmd'.
    pose proof (sh_count_extractions is_read SERVER (fun _ => eq_refl)) as Hext.
    pose proof (sh_count_extractions is_inventory_query SERVER (fun _ => eq_refl)) as Hext'.
    destruct (bool_decide (run_SSH_CMD sh _ ≠ 0%Z)); cbn [fst snd];
      rewrite !sh_count_app, Hcmd, Hcmd', Hext, Hext'; done.
Qed.

(** No entry of the sample inventory has the alias db7. *)
Lemma alias_argument_never_prompts_witness :
  sh_count is_read (ssh_sh sample_shell "db7").1 = 0 ∧
  (ssh_sh sample_shell "db7").2 = Exit 1.
Proof.
  destruct (alias_argument_never_prompts sample_shell "db7") as (Hread & _ & Hexit);
    [done|].
  split; [exact Hread|]. by rewrite Hexit.
Defined.


